(** * dextrading: the OHLCV chart data feed (MyTradingView)

    A shallow embedding of the chart component's pure core: the resolution
    aggregator [aggregateBars], the three-way merge [mergeOhlcv], the price
    formatter [formatCryptoPrice], the compare-ticker codec
    ([buildCompareTicker], [parseCompareTicker]), the feed normaliser
    [getOhlcvFromFeed], [fetchFullOhlcv], the data-feed methods [getBars],
    [resolveSymbol], [subscribeBars] and [searchSymbols], the search mapping
    of the compare dialog and [handleCompareSelect].

    Modelling conventions.
    - A JavaScript string is the list of its UTF-16 code units.
    - Prices and volumes are IEEE-754 binary64 numbers ([PrimFloat.float]),
      the run-time representation of a JavaScript number; [+] on them is
      the rounded addition of the machine.
    - Bar times are Unix seconds held in [Z]. The operations the code applies
      to a time (floor division by the interval, comparison, multiplication by
      1000) are exact on doubles that hold integers of timestamp magnitude, so
      they are written with [Z.div], [Z.mul] and the order of [Z].
    - The resolution table is an object literal: a resolution is looked up
      among its fifteen own keys and then among the members it inherits from
      [Object.prototype] ([lookupIntervalSec]). An inherited member is not a
      number; [aggregateBars] is the aggregator where the looked-up interval
      is a number, [aggregateBars_any] and [serveFromCache] cover every
      resolution string.
    - [setTimeout] and promise scheduling are not modelled: a callback is
      the value the data-feed method returns. *)

From Stdlib Require Import String Ascii.
From Stdlib Require Import ZArith NArith List Bool Lia.
From Stdlib Require Import QArith Qpower Lqa.
From Stdlib Require Import Sorting.Sorted Sorting.Permutation.
From Stdlib Require Import PrimFloat FloatOps SpecFloat FloatClass FloatAxioms.
Import ListNotations.

Set Warnings "-inexact-float".
Local Open Scope Z_scope.

(* ================================================================= *)
(** ** JavaScript strings *)

Module Js.

Definition jsstring := list N.

(** A literal of ASCII characters, as code units. *)
Definition lit (s : string) : jsstring :=
  map N_of_ascii (list_ascii_of_string s).

Fixpoint str_eqb (a b : jsstring) : bool :=
  match a, b with
  | [], [] => true
  | x :: a', y :: b' => N.eqb x y && str_eqb a' b'
  | _, _ => false
  end.

(** WhiteSpace and LineTerminator code points, the characters
    [String.prototype.trim] and [parseInt] strip. *)
Definition isWhiteSpace (c : N) : bool :=
  existsb (N.eqb c)
    [9; 10; 11; 12; 13; 32; 160; 5760; 8192; 8193; 8194; 8195; 8196; 8197;
     8198; 8199; 8200; 8201; 8202; 8232; 8233; 8239; 8287; 12288; 65279]%N.

Fixpoint trimStart (s : jsstring) : jsstring :=
  match s with
  | c :: s' => if isWhiteSpace c then trimStart s' else s
  | [] => []
  end.

Definition trimEnd (s : jsstring) : jsstring := rev (trimStart (rev s)).

Definition trim (s : jsstring) : jsstring := trimEnd (trimStart s).

(** [s.startsWith(p)]. *)
Fixpoint startsWith (p s : jsstring) : bool :=
  match p, s with
  | [], _ => true
  | x :: p', y :: s' => N.eqb x y && startsWith p' s'
  | _ :: _, [] => false
  end.

(** [s.endsWith(p)]. *)
Definition endsWith (p s : jsstring) : bool := startsWith (rev p) (rev s).

(** [s.includes(p)]. *)
Fixpoint includes (p s : jsstring) : bool :=
  startsWith p s || match s with [] => false | _ :: s' => includes p s' end.

(** The separator of the ticker format, [" / "]. *)
Definition SEP : jsstring := [32; 47; 32]%N.

Definition isSep (a b c : N) : bool := N.eqb a 32 && N.eqb b 47 && N.eqb c 32.

(** [s.split(" / ")]: the occurrences of the separator are taken from the
    left, each search resuming after the previous occurrence; [cur] is the
    segment being read. *)
Fixpoint splitSep (s cur : jsstring) : list jsstring :=
  match s with
  | [] => [cur]
  | a :: s' =>
      match s' with
      | b :: c :: rest =>
          if isSep a b c then cur :: splitSep rest [] else splitSep s' (cur ++ [a])
      | _ => splitSep s' (cur ++ [a])
      end
  end.

Definition split_slash (s : jsstring) : list jsstring := splitSep s [].

(** The digits of the decimal representation of a non-negative integer,
    most significant first, with no leading zeros. *)
Fixpoint digits_fuel (fuel : nat) (n : Z) (acc : jsstring) : jsstring :=
  match fuel with
  | O => acc
  | S f =>
      let acc' := (48 + Z.to_N (n mod 10))%N :: acc in
      if n <? 10 then acc' else digits_fuel f (n / 10) acc'
  end.

Definition digits (n : Z) : jsstring :=
  digits_fuel (S (Z.to_nat (Z.log2 n))) n [].

(** [String(n)] for an integer [n] of magnitude below 1e21: the decimal
    digits, after a minus sign when [n] is negative. (From 1e21 on [String]
    writes an exponent; the formatter passes a count of at most 20.) *)
Definition String_of_integer (n : Z) : jsstring :=
  if n <? 0 then 45%N :: digits (- n) else digits n.


(** The value of a digit in radix 10 or 16, as [parseInt] reads it. *)
Definition digitValue (radix : Z) (c : N) : option Z :=
  let v :=
    if (48 <=? c)%N && (c <=? 57)%N then Some (Z.of_N c - 48)
    else if (97 <=? c)%N && (c <=? 122)%N then Some (Z.of_N c - 87)
    else if (65 <=? c)%N && (c <=? 90)%N then Some (Z.of_N c - 55)
    else None in
  match v with
  | Some d => if d <? radix then Some d else None
  | None => None
  end.

(** The longest prefix of radix digits, folded into its value; [None] when
    the prefix is empty. *)
Fixpoint leadingDigits (radix : Z) (s : jsstring) (acc : option Z) : option Z :=
  match s with
  | c :: s' =>
      match digitValue radix c with
      | Some d =>
          leadingDigits radix s'
            (Some (match acc with Some a => a * radix + d | None => d end))
      | None => acc
      end
  | [] => acc
  end.

(** [parseInt(s)] with no radix argument; [None] stands for [NaN]. *)
Definition parseInt (s : jsstring) : option Z :=
  let s1 := trimStart s in
  let '(neg, s2) :=
    match s1 with
    | 45%N :: r => (true, r)
    | 43%N :: r => (false, r)
    | _ => (false, s1)
    end in
  let '(radix, s3) :=
    match s2 with
    | 48%N :: 120%N :: r => (16, r)
    | 48%N :: 88%N :: r => (16, r)
    | _ => (10, s2)
    end in
  match leadingDigits radix s3 None with
  | Some v => Some (if neg then - v else v)
  | None => None
  end.

End Js.

Import Js.

(* ================================================================= *)
(** ** JavaScript numbers *)

Local Open Scope float_scope.

Definition isNaN (x : float) : bool := PrimFloat.is_nan x.

Definition isFinite (x : float) : bool :=
  negb (PrimFloat.is_nan x || PrimFloat.is_infinity x).

(** [Math.max(a, b)] and [Math.min(a, b)]: [NaN] when an argument is, and
    [+0] above [-0]. *)
Definition Math_max (a b : float) : float :=
  if isNaN a || isNaN b then nan
  else
    match classify a, classify b with
    | NZero, PZero => b
    | _, _ => if a <? b then b else a
    end.

Definition Math_min (a b : float) : float :=
  if isNaN a || isNaN b then nan
  else
    match classify a, classify b with
    | PZero, NZero => b
    | _, _ => if b <? a then b else a
    end.

Local Close Scope float_scope.

(* ================================================================= *)
(** ** Bars and the resolution table *)

Record IOhlcvData : Type := mkBar {
  time : Z;
  open : float;
  high : float;
  low : float;
  close : float;
  volume : float
}.

Definition chartSecondsPerResolution : list (jsstring * Z) :=
  [ (lit "10", 10 * 60);
    (lit "15", 15 * 60);
    (lit "30", 30 * 60);
    (lit "60", 60 * 60);
    (lit "240", 240 * 60);
    (lit "480", 480 * 60);
    (lit "720", 720 * 60);
    (lit "1440", 24 * 60 * 60);
    (lit "D", 24 * 60 * 60);
    (lit "1D", 24 * 60 * 60);
    (lit "3D", 3 * 24 * 60 * 60);
    (lit "W", 7 * 24 * 60 * 60);
    (lit "1W", 7 * 24 * 60 * 60);
    (lit "M", 30 * 24 * 60 * 60);
    (lit "1M", 30 * 24 * 60 * 60) ].

Fixpoint table_get (table : list (jsstring * Z)) (key : jsstring) : option Z :=
  match table with
  | [] => None
  | (k, v) :: rest => if str_eqb k key then Some v else table_get rest key
  end.

(** The members that an object literal inherits from [Object.prototype].
    Each is a function, and [__proto__] reads as the prototype object: all
    of them are truthy and none is a number. *)
Definition objectPrototypeNames : list jsstring :=
  [lit "constructor"; lit "hasOwnProperty"; lit "isPrototypeOf";
   lit "propertyIsEnumerable"; lit "toLocaleString"; lit "toString";
   lit "valueOf"; lit "__proto__"; lit "__defineGetter__";
   lit "__defineSetter__"; lit "__lookupGetter__"; lit "__lookupSetter__"].

Definition inheritsMember (resolution : jsstring) : bool :=
  existsb (str_eqb resolution) objectPrototypeNames.

Inductive TableValue : Type :=
| NumberValue (seconds : Z)
| InheritedValue
| NoProperty.

(** [chartSecondsPerResolution[resolution]]: the own property, else the
    inherited member, else [undefined]. *)
Definition chartSecondsPerResolution_at (resolution : jsstring) : TableValue :=
  match table_get chartSecondsPerResolution resolution with
  | Some seconds => NumberValue seconds
  | None => if inheritsMember resolution then InheritedValue else NoProperty
  end.

(** [chartSecondsPerResolution[resolution] || 300]. An inherited member is
    truthy, so the fallback is not taken, and it is not a number: [None]. *)
Definition lookupIntervalSec (resolution : jsstring) : option Z :=
  match chartSecondsPerResolution_at resolution with
  | NumberValue seconds => Some (if seconds =? 0 then 300 else seconds)
  | InheritedValue => None
  | NoProperty => Some 300
  end.

(** The interval in seconds where [lookupIntervalSec] is a number: the
    table entry of the resolution, or 300. *)
Definition intervalSecOf (resolution : jsstring) : Z :=
  match table_get chartSecondsPerResolution resolution with
  | Some v => if v =? 0 then 300 else v
  | None => 300
  end.

(* ================================================================= *)
(** ** aggregateBars *)

(** [Math.floor(bar.time / intervalSec) * intervalSec]. *)
Definition bucketTimeOf (intervalSec : Z) (bar : IOhlcvData) : Z :=
  (time bar / intervalSec) * intervalSec.

(** [{ ...bar, time: bucketTime }]. *)
Definition withTime (bar : IOhlcvData) (bucketTime : Z) : IOhlcvData :=
  mkBar bucketTime (open bar) (high bar) (low bar) (close bar) (volume bar).

(** The four assignments to [agg] in the [else] branch. *)
Definition absorb (agg bar : IOhlcvData) : IOhlcvData :=
  mkBar (time agg) (open agg)
        (Math_max (high agg) (high bar))
        (Math_min (low agg) (low bar))
        (close bar)
        (volume agg + volume bar)%float.

(** The [Map<number, IOhlcvData>], in insertion order. *)
Definition Buckets := list (Z * IOhlcvData).

Fixpoint buckets_get (buckets : Buckets) (key : Z) : option IOhlcvData :=
  match buckets with
  | [] => None
  | (k, v) :: rest => if k =? key then Some v else buckets_get rest key
  end.

Definition buckets_has (buckets : Buckets) (key : Z) : bool :=
  match buckets_get buckets key with Some _ => true | None => false end.

(** The entry under [key] mutated in place by [f]. *)
Fixpoint buckets_update (buckets : Buckets) (key : Z)
    (f : IOhlcvData -> IOhlcvData) : Buckets :=
  match buckets with
  | [] => []
  | (k, v) :: rest =>
      if k =? key then (k, f v) :: rest
      else (k, v) :: buckets_update rest key f
  end.

(** [buckets.set(key, v)] for a key the map does not hold. *)
Definition buckets_set_new (buckets : Buckets) (key : Z) (v : IOhlcvData) : Buckets :=
  buckets ++ [(key, v)].

(** One turn of the [for (const bar of rawBars)] loop. *)
Definition aggregateStep (intervalSec : Z) (buckets : Buckets)
    (bar : IOhlcvData) : Buckets :=
  let bucketTime := bucketTimeOf intervalSec bar in
  if negb (buckets_has buckets bucketTime)
  then buckets_set_new buckets bucketTime (withTime bar bucketTime)
  else buckets_update buckets bucketTime (fun agg => absorb agg bar).

(** [array.sort((a, b) => a.time - b.time)]: the stable sort by time. *)
Fixpoint insertByTime (x : IOhlcvData) (l : list IOhlcvData) : list IOhlcvData :=
  match l with
  | [] => [x]
  | y :: l' => if time x <=? time y then x :: l else y :: insertByTime x l'
  end.

Definition sortByTime (l : list IOhlcvData) : list IOhlcvData :=
  fold_right insertByTime [] l.

(** [aggregateBars] where the looked-up interval is a number, which it is
    for every resolution but the name of an inherited member. *)
Definition aggregateBars (rawBars : list IOhlcvData) (resolution : jsstring)
    : list IOhlcvData :=
  let intervalSec := intervalSecOf resolution in
  let buckets := fold_left (aggregateStep intervalSec) rawBars [] in
  sortByTime (map snd buckets).

(** With an interval that is not a number [bar.time / intervalSec] is [NaN]
    and so is every [bucketTime]. The map finds the key [NaN] again
    (SameValueZero), so all bars are folded into one entry, a bar whose
    [time] is [NaN]. *)
Record NaNBar : Type := mkNaNBar {
  nan_open : float;
  nan_high : float;
  nan_low : float;
  nan_close : float;
  nan_volume : float
}.

(** One turn of the loop on the bucket [NaN]. *)
Definition aggregateNaNStep (bucket : option NaNBar) (bar : IOhlcvData)
    : option NaNBar :=
  match bucket with
  | None =>
      Some (mkNaNBar (open bar) (high bar) (low bar) (close bar) (volume bar))
  | Some agg =>
      Some (mkNaNBar (nan_open agg)
                     (Math_max (nan_high agg) (high bar))
                     (Math_min (nan_low agg) (low bar))
                     (close bar)
                     (nan_volume agg + volume bar)%float)
  end.

(** The array [aggregateBars] returns: bars with a time, or the one bar of
    the bucket [NaN] (none for an empty input). *)
Inductive Aggregated : Type :=
| Timed (series : list IOhlcvData)
| Untimed (bucket : option NaNBar).

(** [aggregateBars] for every resolution string. *)
Definition aggregateBars_any (rawBars : list IOhlcvData) (resolution : jsstring)
    : Aggregated :=
  match lookupIntervalSec resolution with
  | Some _ => Timed (aggregateBars rawBars resolution)
  | None => Untimed (fold_left aggregateNaNStep rawBars None)
  end.

(* ================================================================= *)
(** ** getOhlcvFromFeed *)

(** One entry of [ohlcv_list]: [[time, open, high, low, close, volume]]. *)
Definition OhlcvTuple : Type := (Z * float * float * float * float * float)%type.

(** The feed payload; [data] may be absent. The [meta] component, which no
    bar computation reads, is left out. *)
Record IDatafeed : Type := mkFeed {
  data : option (list OhlcvTuple)
}.

Definition barOfTuple (item : OhlcvTuple) : IOhlcvData :=
  let '(t, o, h, l, c, v) := item in mkBar t o h l c v.

Definition getOhlcvFromFeed (feed : IDatafeed) : list IOhlcvData :=
  match data feed with
  | None => []
  | Some ohlcv_list => sortByTime (map barOfTuple ohlcv_list)
  end.

(* ================================================================= *)
(** ** mergeOhlcv *)

(** A head timestamp, or [Infinity] for an exhausted cursor. *)
Inductive HeadTime : Type :=
| Finite (t : Z)
| Infinity.

Definition head_eqb (a b : HeadTime) : bool :=
  match a, b with
  | Finite x, Finite y => x =? y
  | Infinity, Infinity => true
  | _, _ => false
  end.

Definition head_min (a b : HeadTime) : HeadTime :=
  match a, b with
  | Finite x, Finite y => Finite (Z.min x y)
  | Finite _, Infinity => a
  | Infinity, _ => b
  end.

(** A cursor [i] into an array is kept as the part of the array from index
    [i] on: [arr[i]] is its head, [i < arr.length] says it is not empty and
    [i++] drops the head. *)
Definition headTime (rest : list IOhlcvData) : HeadTime :=
  match rest with
  | bar :: _ => Finite (time bar)
  | [] => Infinity
  end.

(** [merged.push(arr[i])]. *)
Definition push_head (merged rest : list IOhlcvData) : list IOhlcvData :=
  match rest with
  | bar :: _ => merged ++ [bar]
  | [] => merged
  end.

(** The [while] loop; [fuel] bounds the number of turns. *)
Fixpoint mergeLoop (fuel : nat) (minuteData hourData dayData merged : list IOhlcvData)
    : option (list IOhlcvData) :=
  match minuteData, hourData, dayData with
  | [], [], [] => Some merged
  | _, _, _ =>
      match fuel with
      | O => None
      | S fuel' =>
          let tMin := headTime minuteData in
          let tHour := headTime hourData in
          let tDay := headTime dayData in
          let minT := head_min tMin (head_min tHour tDay) in
          if head_eqb tMin minT && head_eqb tHour minT && head_eqb tDay minT then
            mergeLoop fuel' (tl minuteData) (tl hourData) (tl dayData)
                      (push_head merged dayData)
          else if head_eqb tHour minT && head_eqb tMin minT then
            mergeLoop fuel' (tl minuteData) (tl hourData) dayData
                      (push_head merged hourData)
          else if head_eqb tDay minT && head_eqb tHour minT then
            mergeLoop fuel' minuteData (tl hourData) (tl dayData)
                      (push_head merged dayData)
          else if head_eqb tDay minT then
            mergeLoop fuel' minuteData hourData (tl dayData)
                      (push_head merged dayData)
          else if head_eqb tHour minT then
            mergeLoop fuel' minuteData (tl hourData) dayData
                      (push_head merged hourData)
          else
            mergeLoop fuel' (tl minuteData) hourData dayData
                      (push_head merged minuteData)
      end
  end.

(** Every turn consumes at least one bar, so the three lengths bound the
    number of turns ([mergeLoop_terminates] below). *)
Definition mergeFuel (minuteData hourData dayData : list IOhlcvData) : nat :=
  (length minuteData + length hourData + length dayData)%nat.

Definition mergeOhlcv (minuteData hourData dayData : list IOhlcvData)
    : list IOhlcvData :=
  match mergeLoop (mergeFuel minuteData hourData dayData)
                  minuteData hourData dayData [] with
  | Some merged => merged
  | None => []
  end.

(* ================================================================= *)
(** ** The price formatter *)

Section Formatter.

(** [Number::toString] for a magnitude of at least 1e21, where [toFixed]
    falls back to exponent notation; the formatter reaches it for such
    prices only. *)
Variable Number_toString : float -> jsstring.

Definition SUBSCRIPT_DIGITS (c : N) : option N :=
  if (48 <=? c)%N && (c <=? 57)%N then Some (8320 + (c - 48))%N else None.

(** [String(n).split("").map((c) => SUBSCRIPT_DIGITS[c] ?? c).join("")],
    for an integer [n] of magnitude below 1e21. *)
Definition toSubscript (n : Z) : jsstring :=
  map (fun c => match SUBSCRIPT_DIGITS c with Some s => s | None => c end)
      (String_of_integer n).

(** The integer [n] for which [n / 10^f - x] is closest to zero, the larger
    one on a tie, for [x = m * 2^e]. *)
Definition toFixed_n (m : positive) (e : Z) (f : Z) : Z :=
  let num := Zpos m * 10 ^ f in
  if 0 <=? e then num * 2 ^ e
  else let den := 2 ^ (- e) in (2 * num + den) / (2 * den).

(** The digits of [n] with a decimal point before the last [f] of them. *)
Definition placePoint (n : Z) (f : Z) : jsstring :=
  let m := digits n in
  if f =? 0 then m
  else
    let k := Z.of_nat (length m) in
    let m' := if k <=? f then repeat 48%N (Z.to_nat (f + 1 - k)) ++ m else m in
    let k' := Z.of_nat (length m') in
    firstn (Z.to_nat (k' - f)) m' ++ [46%N] ++ skipn (Z.to_nat (k' - f)) m'.

(** [x.toFixed(f)], for [0 <= f <= 100]. *)
Definition toFixed (x : float) (f : Z) : jsstring :=
  match Prim2SF x with
  | S754_nan => lit "NaN"
  | S754_infinity s => if s then lit "-Infinity" else lit "Infinity"
  | S754_zero _ => placePoint 0 f
  | S754_finite s m e =>
      if (1e21 <=? abs x)%float then Number_toString x
      else (if s then [45%N] else []) ++ placePoint (toFixed_n m e f) f
  end.

Fixpoint dropZeros (s : jsstring) : jsstring :=
  match s with
  | 48%N :: s' => dropZeros s'
  | _ => s
  end.

(** [s.replace(/0+$/, "")]. *)
Definition stripTrailingZeros (s : jsstring) : jsstring :=
  rev (dropZeros (rev s)).

(** [s.replace(/\.?0+$/, "")]: the match is the run of zeros that ends
    the string, with the point before it when there is one; a string that
    does not end in a zero is unchanged. *)
Definition stripFraction (s : jsstring) : jsstring :=
  match rev s with
  | 48%N :: _ =>
      match dropZeros (rev s) with
      | 46%N :: r => rev r
      | r => rev r
      end
  | _ => s
  end.

Fixpoint takeUntilDot (s : jsstring) : jsstring :=
  match s with
  | [] => []
  | c :: s' => if (c =? 46)%N then [] else c :: takeUntilDot s'
  end.

Fixpoint afterFirstDot (s : jsstring) : option jsstring :=
  match s with
  | [] => None
  | c :: s' => if (c =? 46)%N then Some s' else afterFirstDot s'
  end.

(** [s.split(".")[1] ?? ""]. *)
Definition secondDotPart (s : jsstring) : jsstring :=
  match afterFirstDot s with
  | Some r => takeUntilDot r
  | None => []
  end.

(** The [for (const ch of afterDecimal)] loop. *)
Fixpoint countLeadingZeros (s : jsstring) : Z :=
  match s with
  | 48%N :: s' => 1 + countLeadingZeros s'
  | _ => 0
  end.

(** [s.slice(a, b)] for [0 <= a <= b]. *)
Definition slice (s : jsstring) (a b : Z) : jsstring :=
  firstn (Z.to_nat (b - a)) (skipn (Z.to_nat a) s).

(** An optional boolean argument read as a condition. *)
Definition truthy (flag : option bool) : bool :=
  match flag with Some b => b | None => false end.

Definition formatCryptoPrice (price : float) (signPositive : option bool)
    : jsstring :=
  if negb (isFinite price) || isNaN price then lit "0"
  else
    let sign := if truthy signPositive && (0 <? price)%float then lit "+" else [] in
    let isNegative := (price <? 0)%float in
    let negSign := if isNegative then lit "-" else [] in
    let absPrice := abs price in
    if (absPrice =? 0)%float then sign ++ lit "0"
    else if (0.001 <=? absPrice)%float then
      let decimals :=
        if (1000 <=? absPrice)%float then 2
        else if (1 <=? absPrice)%float then 4
        else if (0.1 <=? absPrice)%float then 5
        else 6 in
      sign ++ negSign ++ stripFraction (toFixed absPrice decimals)
    else
      let fixedStr := toFixed absPrice 20 in
      let afterDecimal := secondDotPart fixedStr in
      let leadingZeros := countLeadingZeros afterDecimal in
      let sigDigits :=
        stripTrailingZeros (slice afterDecimal leadingZeros (leadingZeros + 4)) in
      let significandRaw := match sigDigits with [] => lit "0" | _ => sigDigits end in
      if 3 <? leadingZeros then
        sign ++ negSign ++ lit "0.0" ++ toSubscript leadingZeros ++ significandRaw
      else
        sign ++ negSign ++ stripFraction (toFixed absPrice (leadingZeros + 4)).

(** The two methods of [createCryptoPriceFormatter()]. *)
Definition format (price : float) (signPositive : option bool) : jsstring :=
  formatCryptoPrice price signPositive.

Definition formatChange (currentPrice prevPrice : float)
    (signPositive : option bool) : jsstring :=
  formatCryptoPrice (currentPrice - prevPrice)%float
    (Some (match signPositive with Some b => b | None => true end)).

End Formatter.

(* ================================================================= *)
(** ** The compare-ticker codec *)

Record CompareTarget : Type := mkTarget {
  address : jsstring;
  network : jsstring
}.

Definition buildCompareTicker (poolName network address : jsstring) : jsstring :=
  trim poolName ++ SEP ++ network ++ SEP ++ address.

(** The trimmed segments, [ticker.split(" / ").map((p) => p.trim())]. *)
Definition tickerParts (ticker : jsstring) : list jsstring :=
  map trim (split_slash ticker).

(** [parts[parts.length - 1]] and [parts[parts.length - 2]]. *)
Definition lastPart (parts : list jsstring) : jsstring := last parts [].
Definition secondLastPart (parts : list jsstring) : jsstring :=
  last (removelast parts) [].

(** A string read as a condition: non-empty. *)
Definition nonEmpty (s : jsstring) : bool :=
  match s with [] => false | _ => true end.

Definition parseCompareTicker (ticker : jsstring) : option CompareTarget :=
  if negb (nonEmpty (trim ticker)) then None
  else
    let parts := tickerParts ticker in
    if (3 <=? length parts)%nat then
      let address := lastPart parts in
      let network := secondLastPart parts in
      if nonEmpty address && (8 <=? length address)%nat && nonEmpty network
      then Some (mkTarget address network)
      else None
    else None.

(* ================================================================= *)
(** ** The data feed: getBars *)

Definition DAILY_RESOLUTIONS : list jsstring :=
  [lit "1440"; lit "D"; lit "1D"; lit "3D"; lit "W"; lit "1W"; lit "M"; lit "1M"].

(** [DAILY_RESOLUTIONS.has(resolution)]. *)
Definition DAILY_RESOLUTIONS_has (resolution : jsstring) : bool :=
  existsb (str_eqb resolution) DAILY_RESOLUTIONS.

(** [parseInt(resolution) >= 60]; a comparison with [NaN] is false. *)
Definition atLeastHourly (resolution : jsstring) : bool :=
  match parseInt resolution with
  | Some minutes => 60 <=? minutes
  | None => false
  end.

Record PeriodParams : Type := mkPeriod {
  from : Z;
  to : Z
}.

Record SymbolInfo : Type := mkSymbol {
  ticker : option jsstring;
  description : option jsstring;
  name : option jsstring
}.

(** [symbolInfo.ticker ?? symbolInfo.description ?? symbolInfo.name ?? ""]. *)
Definition tickerOf (symbolInfo : SymbolInfo) : jsstring :=
  match ticker symbolInfo, description symbolInfo, name symbolInfo with
  | Some t, _, _ => t
  | None, Some d, _ => d
  | None, None, Some n => n
  | None, None, None => []
  end.

(** The source series of a non-compare symbol. *)
Definition sourceData (minuteData hourData dayData : list IOhlcvData)
    (resolution : jsstring) : list IOhlcvData :=
  if DAILY_RESOLUTIONS_has resolution then dayData
  else if atLeastHourly resolution then
    match hourData, dayData with
    | firstHour :: _, _ :: _ =>
        let hourStart := time firstHour in
        let historical := filter (fun b => time b <? hourStart) dayData in
        historical ++ hourData
    | _ :: _, [] => hourData
    | [], _ => dayData
    end
  else
    match minuteData with
    | _ :: _ => minuteData
    | [] => hourData
    end.

(** The bar handed to the widget: [time] in milliseconds. *)
Definition widgetBar (bar : IOhlcvData) : IOhlcvData :=
  mkBar (time bar * 1000) (open bar) (high bar) (low bar) (close bar) (volume bar).

Definition inPeriod (periodParams : PeriodParams) (bar : IOhlcvData) : bool :=
  (from periodParams <=? time bar) && (time bar <=? to periodParams).

Definition firstBarTime (aggregated : list IOhlcvData) : option Z :=
  match aggregated with
  | bar :: _ => Some (time bar)
  | [] => None
  end.

Record HistoryResult : Type := mkHistory {
  bars : list IOhlcvData;
  noData : bool
}.

(** From [aggregateBars] to the arguments of [onResult]. The branch of the
    primary symbol repeats the text of this closure word for word, so it is
    modelled by the same function.

    For the bar of the bucket [NaN] both comparisons of the filter are
    false, so no bar is served; [firstBarTime] is then [NaN], which is not
    [null], and [periodParams.to < NaN] is false. *)
Definition serveFromCache (rawBars : list IOhlcvData) (resolution : jsstring)
    (periodParams : PeriodParams) : HistoryResult :=
  match aggregateBars_any rawBars resolution with
  | Timed aggregated =>
      let bars := map widgetBar (filter (inPeriod periodParams) aggregated) in
      let noData :=
        (length bars =? 0)%nat &&
        match firstBarTime aggregated with
        | None => true
        | Some t => to periodParams <? t
        end in
      mkHistory bars noData
  | Untimed bucket =>
      mkHistory [] (match bucket with None => true | Some _ => false end)
  end.

Inductive Timeframe : Type := TfDay | TfHour | TfMinute.

(** [compareBarsCache], a [Map<string, IOhlcvData[]>]. *)
Definition CompareCache := list (jsstring * list IOhlcvData).

Fixpoint cache_get (cache : CompareCache) (key : jsstring)
    : option (list IOhlcvData) :=
  match cache with
  | [] => None
  | (k, v) :: rest => if str_eqb k key then Some v else cache_get rest key
  end.

Fixpoint cache_set (cache : CompareCache) (key : jsstring)
    (v : list IOhlcvData) : CompareCache :=
  match cache with
  | [] => [(key, v)]
  | (k, old) :: rest =>
      if str_eqb k key then (k, v) :: rest else (k, old) :: cache_set rest key v
  end.

(** What the widget is called back with. *)
Inductive GetBarsOutcome : Type :=
| OnResult (result : HistoryResult)
| OnError (reason : jsstring).

Section DataFeed.

(** The HTTP collaborator: the feed for an address, network, timeframe and
    aggregate, or the reason its promise rejects with. *)
Variable getDataFeed :
  jsstring -> jsstring -> Timeframe -> Z -> jsstring + IDatafeed.

(** [Promise.all] of the three requests, then the merge. When requests
    reject, [Promise.all] rejects with the reason of the one that rejects
    first in time; the reason kept here is that of the first rejected
    request in the order day, hour, minute, and what is proved of a failure
    is only that its reason is the reason of one of the three requests. *)
Definition fetchFullOhlcv (address network : jsstring)
    : jsstring + list IOhlcvData :=
  match getDataFeed address network TfDay 1,
        getDataFeed address network TfHour 1,
        getDataFeed address network TfMinute 5 with
  | inr dayFeed, inr hourFeed, inr minuteFeed =>
      let dayData := getOhlcvFromFeed dayFeed in
      let hourData := getOhlcvFromFeed hourFeed in
      let minuteData := getOhlcvFromFeed minuteFeed in
      inr (mergeOhlcv minuteData hourData dayData)
  | inl err, _, _ => inl err
  | _, inl err, _ => inl err
  | _, _, inl err => inl err
  end.

(** [getBars] of the data feed built from the three primary series; the
    cache is threaded through, and the deferred call of [onResult] or
    [onError] is the returned outcome. This is one call with nothing
    running between its look into the cache and the settling of its fetch;
    [getBars_begin] and [getBars_settle] below are the two steps for calls
    that overlap. *)
Definition getBars (minuteData hourData dayData : list IOhlcvData)
    (cache : CompareCache) (symbolInfo : SymbolInfo) (resolution : jsstring)
    (periodParams : PeriodParams) : CompareCache * GetBarsOutcome :=
  match parseCompareTicker (tickerOf symbolInfo) with
  | None =>
      (cache,
       OnResult (serveFromCache (sourceData minuteData hourData dayData resolution)
                           resolution periodParams))
  | Some parsed =>
      let cacheKey := address parsed ++ lit "_" ++ network parsed in
      match cache_get cache cacheKey with
      | Some cached => (cache, OnResult (serveFromCache cached resolution periodParams))
      | None =>
          match fetchFullOhlcv (address parsed) (network parsed) with
          | inr data =>
              (cache_set cache cacheKey data,
               OnResult (serveFromCache data resolution periodParams))
          | inl err => (cache, OnError err)
          end
      end
  end.

End DataFeed.

(* ================================================================= *)
(** ** The aggregator as the specification words it *)

(** The interval of a resolution: its table entry, 300 when it has none. *)
Definition spec_intervalSeconds (resolution : jsstring) : Z :=
  match table_get chartSecondsPerResolution resolution with
  | Some seconds => seconds
  | None => 300
  end.

(** [bucketTime = floor(time / intervalSeconds) * intervalSeconds]. *)
Definition spec_bucketTime (intervalSeconds : Z) (bar : IOhlcvData) : Z :=
  (time bar / intervalSeconds) * intervalSeconds.

(** The bars of one bucket, in input order. *)
Definition spec_bucketMembers (intervalSeconds bucketTime : Z)
    (series : list IOhlcvData) : list IOhlcvData :=
  filter (fun bar => spec_bucketTime intervalSeconds bar =? bucketTime) series.

(** The first bar of a bucket seeds its aggregate. *)
Definition spec_seed (bucketTime : Z) (first : IOhlcvData) : IOhlcvData :=
  {| time := bucketTime; open := open first; high := high first;
     low := low first; close := close first; volume := volume first |}.

(** Each later bar of the bucket is folded in. *)
Definition spec_fold (agg bar : IOhlcvData) : IOhlcvData :=
  {| time := time agg; open := open agg;
     high := Math_max (high agg) (high bar);
     low := Math_min (low agg) (low bar);
     close := close bar;
     volume := (volume agg + volume bar)%float |}.

(** One bar for a bucket that has members, none for an empty one. *)
Definition spec_bucketBar (bucketTime : Z) (members : list IOhlcvData)
    : list IOhlcvData :=
  match members with
  | [] => []
  | first :: later => [fold_left spec_fold later (spec_seed bucketTime first)]
  end.

(** Insertion into an ascending list of distinct times. *)
Fixpoint spec_insertTime (t : Z) (times : list Z) : list Z :=
  match times with
  | [] => [t]
  | u :: rest =>
      if t <? u then t :: times
      else if t =? u then times
      else u :: spec_insertTime t rest
  end.

(** The bucket times of a series, ascending, each once. *)
Definition spec_bucketTimes (intervalSeconds : Z) (series : list IOhlcvData)
    : list Z :=
  fold_right spec_insertTime [] (map (spec_bucketTime intervalSeconds) series).

Definition aggregateSpec (series : list IOhlcvData) (resolution : jsstring)
    : list IOhlcvData :=
  let intervalSeconds := spec_intervalSeconds resolution in
  flat_map
    (fun bucketTime =>
       spec_bucketBar bucketTime
         (spec_bucketMembers intervalSeconds bucketTime series))
    (spec_bucketTimes intervalSeconds series).

(* ================================================================= *)
(** ** Totals of volume, and when a machine addition is exact *)











(** Times strictly increasing along a series. *)
Definition ascending (series : list IOhlcvData) : Prop :=
  StronglySorted Z.lt (map time series).



(* ================================================================= *)
(** ** What getBars promises the widget *)

(** The result for an aggregated series and a period: every returned bar
    is an aggregated bar of the period with its time in milliseconds, every
    aggregated bar of the period is returned, and [noData] is set exactly
    when nothing is returned and either there is no aggregated bar or the
    period ends before the first one. *)
Definition historyContract (aggregated : list IOhlcvData)
    (periodParams : PeriodParams) (result : HistoryResult) : Prop :=
  (forall bar, In bar (bars result) ->
     exists agg, In agg aggregated /\
       (from periodParams <= time agg <= to periodParams) /\
       (time bar = 1000 * time agg) /\
       (open bar = open agg) /\ (high bar = high agg) /\
       (low bar = low agg) /\ (close bar = close agg) /\
       (volume bar = volume agg)) /\
  (forall agg, In agg aggregated ->
     from periodParams <= time agg <= to periodParams ->
     In (widgetBar agg) (bars result)) /\
  (noData result = true <->
     bars result = [] /\
     (aggregated = [] \/
      exists first later, (aggregated = first :: later) /\
                          (to periodParams < time first))).

(* ================================================================= *)
(** ** The state of the merge loop *)

(** The cursor into a series after a turn that emitted time [t]: it moves
    on when its head has that time. *)
Definition advance (t : Z) (rest : list IOhlcvData) : list IOhlcvData :=
  if head_eqb (headTime rest) (Finite t) then tl rest else rest.

(** The order of head timestamps, [Infinity] above every time. *)
Definition head_le (a b : HeadTime) : Prop :=
  match a, b with
  | Finite x, Finite y => x <= y
  | _, Infinity => True
  | Infinity, Finite _ => False
  end.

(** Every bar of [rest] is later than [t]. *)
Definition after (t : Z) (rest : list IOhlcvData) : Prop :=
  Forall (fun bar => t < time bar) rest.

(** Every bar emitted so far is earlier than every bar of [rest]. *)
Definition below (merged rest : list IOhlcvData) : Prop :=
  forall b c, In b merged -> In c rest -> time b < time c.

(** The state of the merge loop: [M], [H], [D] are the three inputs,
    [ms], [hs], [ds] what the cursors have not reached, [merged] the output
    so far. *)
Record merge_inv (M H D ms hs ds merged : list IOhlcvData) : Prop := mkMergeInv {
  mi_asc_m : ascending ms;
  mi_asc_h : ascending hs;
  mi_asc_d : ascending ds;
  mi_asc : ascending merged;
  mi_below_m : below merged ms;
  mi_below_h : below merged hs;
  mi_below_d : below merged ds;
  mi_tie : forall x y, In x ds -> In y ms -> time x = time y ->
                       exists z, In z hs /\ time z = time x;
  mi_incl_m : incl ms M;
  mi_incl_h : incl hs H;
  mi_incl_d : incl ds D;
  mi_seen_m : forall x, In x M -> In x ms \/ exists b, In b merged /\ time b = time x;
  mi_seen_h : forall x, In x H -> In x hs \/ exists b, In b merged /\ time b = time x;
  mi_seen_d : forall x, In x D -> In x ds \/ exists b, In b merged /\ time b = time x;
  mi_priority : forall b, In b merged ->
      In b D \/
      (In b H /\ forall x, In x D -> time x <> time b) \/
      (In b M /\ (forall x, In x D -> time x <> time b) /\
                 (forall x, In x H -> time x <> time b))
}.

(* ================================================================= *)
(** ** The state of the aggregation loop *)

(** What the map holds once the bars [seen] have been read: one entry per
    bucket met so far, each the aggregate of the bucket's bars. *)
Record buckets_inv (n : Z) (seen : list IOhlcvData) (buckets : Buckets)
    : Prop := mkInv {
  inv_nodup : NoDup (map fst buckets);
  inv_entry : forall k v, In (k, v) buckets ->
      spec_bucketBar k (spec_bucketMembers n k seen) = [v];
  inv_cover : forall bar, In bar seen ->
      In (spec_bucketTime n bar) (map fst buckets)
}.

(* ================================================================= *)
(** ** The rest of the data feed: resolveSymbol, subscribeBars, search *)

Definition chartResolutions : list jsstring :=
  [lit "10"; lit "15"; lit "30"; lit "60"; lit "240"; lit "480"; lit "720";
   lit "1440"; lit "3D"; lit "W"; lit "M"].

(** [parts.join(" / ")]. *)
Fixpoint join_slash (parts : list jsstring) : jsstring :=
  match parts with
  | [] => []
  | [p] => p
  | p :: rest => p ++ SEP ++ join_slash rest
  end.

(** What [resolveSymbol] hands to [onSymbolResolvedCallback]: the name,
    description and ticker of the symbol, and its exchange
    ([listed_exchange] holds the same value). The fields that are the same
    for every symbol are left out. *)
Definition resolveSymbol (tokenExchange symbolName : jsstring)
    : SymbolInfo * jsstring :=
  let parsed := parseCompareTicker symbolName in
  let parts := split_slash symbolName in
  let name :=
    match parsed with
    | Some _ => join_slash (removelast parts)
    | None => symbolName
    end in
  let description :=
    match parsed with
    | Some _ => symbolName
    | None => symbolName ++ lit " Dextrading.com"
    end in
  (mkSymbol (Some symbolName) (Some description) (Some name),
   match parsed with Some _ => lit "DEX" | None => tokenExchange end).

(** [arr[arr.length - 1]], [undefined] for an empty array. *)
Fixpoint lastOf (series : list IOhlcvData) : option IOhlcvData :=
  match series with
  | [] => None
  | [bar] => Some bar
  | _ :: rest => lastOf rest
  end.

(** [dayData[dayData.length - 1] ?? minuteData[minuteData.length - 1]]. *)
Definition lastBar (minuteData dayData : list IOhlcvData) : option IOhlcvData :=
  match lastOf dayData with
  | Some bar => Some bar
  | None => lastOf minuteData
  end.

(** [subscribeBars]: the bar every tick of the timer hands to
    [onRealtimeCallback]; [None] when there is no last bar and no timer is
    set. *)
Definition subscribeBars (minuteData dayData : list IOhlcvData)
    : option IOhlcvData :=
  match lastBar minuteData dayData with
  | Some bar => Some (widgetBar bar)
  | None => None
  end.

(** [s.indexOf("_")], [None] for -1. *)
Fixpoint indexOfUnderscore (s : jsstring) : option nat :=
  match s with
  | [] => None
  | c :: s' =>
      if (c =? 95)%N then Some O
      else match indexOfUnderscore s' with
           | Some i => Some (S i)
           | None => None
           end
  end.

(** [underscoreIdx > -1 ? id.slice(0, underscoreIdx) : "eth"]. *)
Definition networkOfId (id : jsstring) : jsstring :=
  match indexOfUnderscore id with
  | Some underscoreIdx => firstn underscoreIdx id
  | None => lit "eth"
  end.

(** [`${address}_${network}`], the key of [compareBarsCache]. *)
Definition cacheKeyOf (address network : jsstring) : jsstring :=
  address ++ lit "_" ++ network.

Module Search.

(** One item of the search response: [r.id], [r.attributes?.address] and
    [r.attributes?.name], each possibly missing. *)
Record Item : Type := mkItem {
  id : option jsstring;
  address : option jsstring;
  name : option jsstring
}.

(** [CompareResult], without the image and price that are only shown. *)
Record CompareResult : Type := mkResult {
  poolAddress : jsstring;
  network : jsstring;
  poolName : jsstring;
  ticker : jsstring
}.

(** [.filter((r) => r.attributes?.address && r.id)] and the [.map] after
    it, for one item: [None] when the filter drops it. *)
Definition toResult (r : Item) : option CompareResult :=
  match address r, id r with
  | Some poolAddress, Some rid =>
      if nonEmpty poolAddress && nonEmpty rid then
        let network := networkOfId rid in
        let poolName := match name r with Some n => n | None => poolAddress end in
        Some (mkResult poolAddress network poolName
                       (buildCompareTicker poolName network poolAddress))
      else None
  | _, _ => None
  end.

Fixpoint mapped (items : list Item) : list CompareResult :=
  match items with
  | [] => []
  | r :: rest =>
      match toResult r with
      | Some result => result :: mapped rest
      | None => mapped rest
      end
  end.

End Search.

Section SearchFeed.

(** The search request: the items of the response ([result?.data ?? []]),
    or [None] when its promise rejects. *)
Variable searchToken : jsstring -> option (list Search.Item).

(** [searchSymbols]: the tickers handed to [onResultReadyCallback], one
    per entry ([full_name], [description] and [ticker] of an entry are the
    same string, its [exchange] is ["DEX"]), with the entry's [symbol]. *)
Definition searchSymbols (userInput : jsstring) : list (jsstring * jsstring) :=
  if negb (nonEmpty userInput) || (length (trim userInput) <? 2)%nat then []
  else
    match searchToken userInput with
    | Some items =>
        map (fun r => (Search.poolName r, Search.ticker r)) (Search.mapped items)
    | None => []
    end.

End SearchFeed.

Section CompareSelect.

Variable getDataFeed :
  jsstring -> jsstring -> Timeframe -> Z -> jsstring + IDatafeed.


End CompareSelect.

(* ================================================================= *)
(** ** The contract of a history answer for every resolution *)

(** [historyContract] for the array [aggregateBars] returned. The bar of
    the bucket [NaN] has no time in the period, and [periodParams.to] is not
    before [NaN]: no bar is returned, and [noData] is true exactly when
    there is no such bar. *)
Definition historyContractOf (aggregated : Aggregated)
    (periodParams : PeriodParams) (result : HistoryResult) : Prop :=
  match aggregated with
  | Timed series => historyContract series periodParams result
  | Untimed bucket =>
      bars result = [] /\ (noData result = true <-> bucket = None)
  end.

(* ================================================================= *)
(** ** getBars in two steps *)






(* ================================================================= *)
(** * Proofs *)

(** ** Lists of times *)

Lemma sorted_le_nodup_lt (l : list Z) :
  StronglySorted Z.le l -> NoDup l -> StronglySorted Z.lt l.
Proof.
  induction 1 as [|x l Hs IH Hx]; intros Hnd; constructor.
  - apply IH. now inversion Hnd.
  - inversion Hnd as [|? ? Hnot _]; subst.
    rewrite Forall_forall in *. intros y Hy.
    specialize (Hx y Hy).
    assert (x <> y) by (intros ->; contradiction).
    lia.
Qed.

Lemma strict_sorted_head_min (x : Z) (l : list Z) :
  StronglySorted Z.lt (x :: l) -> forall y, In y (x :: l) -> x <= y.
Proof.
  intros Hs y [<-|Hy]; [lia|].
  apply StronglySorted_inv in Hs as [_ Hx].
  rewrite Forall_forall in Hx. specialize (Hx y Hy). lia.
Qed.

Lemma strict_sorted_ext (l1 : list Z) :
  forall l2,
    StronglySorted Z.lt l1 -> StronglySorted Z.lt l2 ->
    (forall x, In x l1 <-> In x l2) -> l1 = l2.
Proof.
  induction l1 as [|a l1 IH]; intros [|b l2] H1 H2 Hio.
  - reflexivity.
  - exfalso. apply (proj2 (Hio b)). now left.
  - exfalso. apply (proj1 (Hio a)). now left.
  - assert (a = b) as ->.
    { pose proof (strict_sorted_head_min _ _ H1 b (proj2 (Hio b) (or_introl eq_refl))).
      pose proof (strict_sorted_head_min _ _ H2 a (proj1 (Hio a) (or_introl eq_refl))).
      lia. }
    f_equal.
    apply StronglySorted_inv in H1 as [H1 F1].
    apply StronglySorted_inv in H2 as [H2 F2].
    rewrite Forall_forall in F1, F2.
    apply IH; trivial.
    intros x; split; intros Hx.
    + destruct (proj1 (Hio x) (or_intror Hx)) as [->|]; trivial.
      specialize (F1 _ Hx). lia.
    + destruct (proj2 (Hio x) (or_intror Hx)) as [->|]; trivial.
      specialize (F2 _ Hx). lia.
Qed.

Lemma spec_insertTime_In (t : Z) (l : list Z) :
  forall x, In x (spec_insertTime t l) <-> x = t \/ In x l.
Proof.
  induction l as [|u l IH]; intros x; simpl.
  - intuition.
  - destruct (Z.ltb_spec t u).
    + simpl. intuition.
    + destruct (Z.eqb_spec t u).
      * subst. simpl. intuition.
      * simpl. rewrite IH. intuition.
Qed.

Lemma spec_insertTime_sorted (t : Z) (l : list Z) :
  StronglySorted Z.lt l -> StronglySorted Z.lt (spec_insertTime t l).
Proof.
  induction 1 as [|u l Hs IH Hu]; simpl.
  - repeat constructor.
  - destruct (Z.ltb_spec t u).
    + constructor; [now constructor|].
      constructor; trivial.
      eapply Forall_impl; [|exact Hu]. simpl. intros; lia.
    + destruct (Z.eqb_spec t u).
      * now constructor.
      * constructor; trivial.
        rewrite Forall_forall in *. intros y Hy.
        apply spec_insertTime_In in Hy as [->|Hy]; [lia|auto].
Qed.

Lemma spec_bucketTimes_sorted (n : Z) (series : list IOhlcvData) :
  StronglySorted Z.lt (spec_bucketTimes n series).
Proof.
  unfold spec_bucketTimes.
  induction series as [|b series IH]; simpl.
  - constructor.
  - now apply spec_insertTime_sorted.
Qed.

Lemma spec_bucketTimes_In (n : Z) (series : list IOhlcvData) (k : Z) :
  In k (spec_bucketTimes n series) <->
  exists bar, In bar series /\ spec_bucketTime n bar = k.
Proof.
  unfold spec_bucketTimes.
  induction series as [|b series IH]; simpl.
  - split; [contradiction|]. now intros (? & [] & _).
  - rewrite spec_insertTime_In, IH. split.
    + intros [->|(bar & Hin & Hk)]; eauto.
    + intros (bar & [->|Hin] & Hk); eauto.
Qed.

(** ** The stable sort by time *)

Lemma insertByTime_perm (x : IOhlcvData) (l : list IOhlcvData) :
  Permutation (insertByTime x l) (x :: l).
Proof.
  induction l as [|y l IH]; simpl.
  - reflexivity.
  - destruct (time x <=? time y).
    + reflexivity.
    + rewrite IH. apply perm_swap.
Qed.

Lemma sortByTime_perm (l : list IOhlcvData) : Permutation (sortByTime l) l.
Proof.
  induction l as [|x l IH]; simpl.
  - reflexivity.
  - rewrite insertByTime_perm. now constructor.
Qed.

Lemma insertByTime_sorted (x : IOhlcvData) (l : list IOhlcvData) :
  StronglySorted Z.le (map time l) ->
  StronglySorted Z.le (map time (insertByTime x l)).
Proof.
  induction l as [|y l IH]; simpl; intros Hs.
  - repeat constructor.
  - apply StronglySorted_inv in Hs as [Hs Hy].
    destruct (Z.leb_spec (time x) (time y)); simpl.
    + constructor; [now constructor|].
      constructor; trivial.
      eapply Forall_impl; [|exact Hy]. simpl. intros; lia.
    + constructor; [auto|].
      rewrite Forall_forall in *. intros t Ht.
      apply in_map_iff in Ht as (b & <- & Hb).
      apply (Permutation_in _ (insertByTime_perm x l)) in Hb as [<-|Hb].
      * lia.
      * apply Hy. now apply in_map.
Qed.

Lemma sortByTime_sorted (l : list IOhlcvData) :
  StronglySorted Z.le (map time (sortByTime l)).
Proof.
  induction l as [|x l IH]; simpl.
  - constructor.
  - now apply insertByTime_sorted.
Qed.

Lemma sortByTime_strict (l : list IOhlcvData) :
  NoDup (map time l) -> ascending (sortByTime l).
Proof.
  intros Hnd. apply sorted_le_nodup_lt.
  - apply sortByTime_sorted.
  - eapply Permutation_NoDup; [|exact Hnd].
    apply Permutation_map, Permutation_sym, sortByTime_perm.
Qed.



Lemma ascending_NoDup (l : list IOhlcvData) :
  ascending l -> NoDup (map time l).
Proof.
  unfold ascending. induction l as [|x l IH]; simpl; intros Hs; constructor;
    apply StronglySorted_inv in Hs as [Hs Hx]; auto.
  intros Hin. rewrite Forall_forall in Hx. specialize (Hx _ Hin). lia.
Qed.

Lemma ascending_filter (f : IOhlcvData -> bool) (series : list IOhlcvData) :
  ascending series -> ascending (filter f series).
Proof.
  unfold ascending.
  induction series as [|bar rest IH]; simpl; intros Hs; trivial.
  apply StronglySorted_inv in Hs as [Hs Hbar].
  destruct (f bar); simpl; auto.
  constructor; auto.
  rewrite Forall_forall in *. intros t Ht.
  apply in_map_iff in Ht as (b & <- & Hb). apply filter_In in Hb as [Hb _].
  apply Hbar. now apply in_map.
Qed.

Lemma ascending_app (older newer : list IOhlcvData) :
  ascending older -> ascending newer ->
  (forall a b, In a older -> In b newer -> time a < time b) ->
  ascending (older ++ newer).
Proof.
  unfold ascending.
  induction older as [|bar rest IH]; simpl; intros Ho Hn Hlt; trivial.
  apply StronglySorted_inv in Ho as [Ho Hbar].
  constructor.
  - apply IH; trivial. intros; apply Hlt; auto.
  - rewrite map_app. apply Forall_app. split; trivial.
    rewrite Forall_forall. intros t Ht.
    apply in_map_iff in Ht as (b & <- & Hb). apply Hlt; auto.
Qed.

(** ** The resolution table *)

Lemma table_get_In (table : list (jsstring * Z)) (key : jsstring) (v : Z) :
  table_get table key = Some v -> In v (map snd table).
Proof.
  induction table as [|[k0 v0] rest IH]; simpl; [discriminate|].
  destruct (str_eqb k0 key).
  - intros [= <-]. now left.
  - intros H. right. auto.
Qed.

Lemma table_values_positive (resolution : jsstring) (v : Z) :
  table_get chartSecondsPerResolution resolution = Some v -> 0 < v.
Proof.
  intros H. apply table_get_In in H.
  assert (F : Forall (fun x => 0 < x) (map snd chartSecondsPerResolution))
    by (vm_compute; repeat constructor).
  rewrite Forall_forall in F. auto.
Qed.

Lemma intervalSecOf_spec (resolution : jsstring) :
  intervalSecOf resolution = spec_intervalSeconds resolution.
Proof.
  unfold intervalSecOf, spec_intervalSeconds.
  destruct (table_get chartSecondsPerResolution resolution) as [v|] eqn:E; trivial.
  apply table_values_positive in E.
  destruct (Z.eqb_spec v 0); [lia|reflexivity].
Qed.

Lemma intervalSecOf_pos (resolution : jsstring) : 0 < intervalSecOf resolution.
Proof.
  unfold intervalSecOf.
  destruct (table_get chartSecondsPerResolution resolution) as [v|] eqn:E; [|lia].
  apply table_values_positive in E.
  destruct (Z.eqb_spec v 0); lia.
Qed.

Lemma lookupIntervalSec_numeric (resolution : jsstring) (n : Z) :
  lookupIntervalSec resolution = Some n -> n = intervalSecOf resolution.
Proof.
  unfold lookupIntervalSec, chartSecondsPerResolution_at, intervalSecOf.
  destruct (table_get chartSecondsPerResolution resolution) as [v|].
  - now intros [= <-].
  - destruct (inheritsMember resolution); [discriminate|now intros [= <-]].
Qed.

Lemma lookupIntervalSec_own (resolution : jsstring) :
  inheritsMember resolution = false ->
  lookupIntervalSec resolution = Some (intervalSecOf resolution).
Proof.
  intros H.
  unfold lookupIntervalSec, chartSecondsPerResolution_at, intervalSecOf.
  destruct (table_get chartSecondsPerResolution resolution); [reflexivity|].
  now rewrite H.
Qed.

Lemma aggregateBars_any_own (rawBars : list IOhlcvData) (resolution : jsstring) :
  inheritsMember resolution = false ->
  aggregateBars_any rawBars resolution = Timed (aggregateBars rawBars resolution).
Proof.
  intros H. unfold aggregateBars_any. now rewrite lookupIntervalSec_own.
Qed.

Lemma aggregateNaN_some (rawBars : list IOhlcvData) (agg : NaNBar) :
  fold_left aggregateNaNStep rawBars (Some agg) <> None.
Proof.
  revert agg. induction rawBars as [|bar rest IH]; intros agg; simpl.
  - discriminate.
  - apply IH.
Qed.

Lemma aggregateNaN_none (rawBars : list IOhlcvData) :
  fold_left aggregateNaNStep rawBars None = None <-> rawBars = [].
Proof.
  destruct rawBars as [|bar rest]; simpl.
  - tauto.
  - split; [|discriminate]. intros E. now apply aggregateNaN_some in E.
Qed.

(** ** The map of buckets *)

Lemma buckets_get_In (buckets : Buckets) (k : Z) (v : IOhlcvData) :
  buckets_get buckets k = Some v -> In (k, v) buckets.
Proof.
  induction buckets as [|[k0 v0] rest IH]; simpl; [discriminate|].
  destruct (Z.eqb_spec k0 k).
  - intros [= <-]. subst. now left.
  - intros H. right. auto.
Qed.

Lemma buckets_get_None (buckets : Buckets) (k : Z) :
  buckets_get buckets k = None <-> ~ In k (map fst buckets).
Proof.
  induction buckets as [|[k0 v0] rest IH]; simpl.
  - intuition.
  - destruct (Z.eqb_spec k0 k).
    + split; [discriminate|]. intros H. exfalso. apply H. now left.
    + rewrite IH. intuition.
Qed.

Lemma buckets_update_keys (buckets : Buckets) (k : Z) f :
  map fst (buckets_update buckets k f) = map fst buckets.
Proof.
  induction buckets as [|[k0 v0] rest IH]; simpl; trivial.
  destruct (k0 =? k); simpl; congruence.
Qed.

Lemma buckets_update_In (buckets : Buckets) (k : Z) f :
  NoDup (map fst buckets) ->
  forall k' v', In (k', v') (buckets_update buckets k f) ->
    (k' <> k /\ In (k', v') buckets) \/
    (k' = k /\ exists v, In (k, v) buckets /\ v' = f v).
Proof.
  induction buckets as [|[k0 v0] rest IH]; simpl; intros Hnd k' v' Hin.
  - contradiction.
  - inversion Hnd as [|? ? Hnot Hnd']; subst.
    destruct (Z.eqb_spec k0 k) as [->|Hne].
    + destruct Hin as [[= <- <-]|Hin].
      * right. split; trivial. exists v0. auto.
      * left. split; [|auto].
        intros ->. apply Hnot.
        change k with (fst (k, v')). now apply in_map.
    + destruct Hin as [[= <- <-]|Hin].
      * left. auto.
      * destruct (IH Hnd' _ _ Hin) as [[? ?]|(-> & v & ? & ->)].
        -- left. auto.
        -- right. split; trivial. exists v. auto.
Qed.

(** ** Buckets as the specification sees them *)

Lemma spec_bucketMembers_snoc (n k : Z) (seen : list IOhlcvData) (bar : IOhlcvData) :
  spec_bucketMembers n k (seen ++ [bar]) =
  spec_bucketMembers n k seen ++
  (if spec_bucketTime n bar =? k then [bar] else []).
Proof.
  unfold spec_bucketMembers. rewrite filter_app. reflexivity.
Qed.

Lemma spec_bucketMembers_nil (n k : Z) (seen : list IOhlcvData) :
  (forall bar, In bar seen -> spec_bucketTime n bar <> k) ->
  spec_bucketMembers n k seen = [].
Proof.
  unfold spec_bucketMembers.
  induction seen as [|b seen IH]; simpl; intros H; trivial.
  destruct (Z.eqb_spec (spec_bucketTime n b) k) as [E|_].
  - exfalso. exact (H b (or_introl eq_refl) E).
  - apply IH. intros; apply H; now right.
Qed.

Lemma spec_bucketBar_snoc (k : Z) (members : list IOhlcvData) (v bar : IOhlcvData) :
  spec_bucketBar k members = [v] ->
  spec_bucketBar k (members ++ [bar]) = [spec_fold v bar].
Proof.
  destruct members as [|first later]; simpl; [discriminate|].
  intros [= <-]. now rewrite fold_left_app.
Qed.

Lemma spec_fold_time (later : list IOhlcvData) (agg : IOhlcvData) :
  time (fold_left spec_fold later agg) = time agg.
Proof.
  revert agg. induction later as [|b later IH]; intros agg; simpl; trivial.
  now rewrite IH.
Qed.

Lemma spec_bucketBar_time (k : Z) (members : list IOhlcvData) (v : IOhlcvData) :
  spec_bucketBar k members = [v] -> time v = k.
Proof.
  destruct members as [|first later]; simpl; [discriminate|].
  intros [= <-]. now rewrite spec_fold_time.
Qed.

Lemma spec_bucketBar_member (k : Z) (members : list IOhlcvData) (v : IOhlcvData) :
  spec_bucketBar k members = [v] -> exists first, In first members.
Proof.
  destruct members as [|first later]; simpl; [discriminate|].
  intros _. exists first. now left.
Qed.

(** ** The loop keeps its invariant *)

Lemma buckets_inv_nil (n : Z) : buckets_inv n [] [].
Proof. split; simpl; try contradiction. constructor. Qed.

Lemma aggregateStep_inv (n : Z) (seen : list IOhlcvData) (buckets : Buckets)
    (bar : IOhlcvData) :
  buckets_inv n seen buckets ->
  buckets_inv n (seen ++ [bar]) (aggregateStep n buckets bar).
Proof.
  intros [Hnd Hentry Hcover].
  unfold aggregateStep, buckets_has, bucketTimeOf.
  fold (spec_bucketTime n bar). set (bt := spec_bucketTime n bar).
  destruct (buckets_get buckets bt) as [agg|] eqn:Hget; simpl.
  - (* the bucket exists: its entry absorbs the bar *)
    pose proof (buckets_get_In _ _ _ Hget) as Hagg.
    split.
    + now rewrite buckets_update_keys.
    + intros k v Hin.
      apply buckets_update_In in Hin as [[Hne Hin]|(-> & v0 & Hin & ->)]; trivial.
      * rewrite spec_bucketMembers_snoc. fold bt.
        destruct (Z.eqb_spec bt k); [congruence|].
        rewrite app_nil_r. auto.
      * rewrite spec_bucketMembers_snoc. fold bt. rewrite Z.eqb_refl.
        now apply spec_bucketBar_snoc, Hentry.
    + intros b Hb. rewrite buckets_update_keys.
      apply in_app_or in Hb as [Hb|[<-|[]]]; auto.
      fold bt. change bt with (fst (bt, agg)). now apply in_map.
  - (* a new bucket, seeded with the bar *)
    apply buckets_get_None in Hget.
    unfold buckets_set_new. split.
    + rewrite map_app. simpl.
      apply NoDup_app; trivial.
      * repeat constructor. intros [].
      * intros x Hx [<-|[]]. contradiction.
    + intros k v Hin. rewrite spec_bucketMembers_snoc. fold bt.
      apply in_app_or in Hin as [Hin|[[= <- <-]|[]]].
      * destruct (Z.eqb_spec bt k) as [->|_].
        -- exfalso. apply Hget. change k with (fst (k, v)). now apply in_map.
        -- rewrite app_nil_r. auto.
      * rewrite Z.eqb_refl.
        rewrite spec_bucketMembers_nil; [reflexivity|].
        intros b Hb E. apply Hget. rewrite <- E. auto.
    + intros b Hb. rewrite map_app. apply in_or_app.
      apply in_app_or in Hb as [Hb|[<-|[]]]; auto.
      right. now left.
Qed.

Lemma aggregateLoop_inv (n : Z) (rawBars : list IOhlcvData) :
  forall seen buckets,
    buckets_inv n seen buckets ->
    buckets_inv n (seen ++ rawBars) (fold_left (aggregateStep n) rawBars buckets).
Proof.
  induction rawBars as [|bar rest IH]; intros seen buckets Hinv; simpl.
  - now rewrite app_nil_r.
  - change (bar :: rest) with ([bar] ++ rest). rewrite app_assoc.
    apply IH. now apply aggregateStep_inv.
Qed.

Lemma flat_map_singletons {A B : Type} (f : A -> list B) (key : B -> A) (l : list B) :
  (forall v, In v l -> f (key v) = [v]) -> flat_map f (map key l) = l.
Proof.
  induction l as [|v l IH]; simpl; intros H; trivial.
  rewrite (H v) by now left. simpl. f_equal. apply IH. intros; apply H; now right.
Qed.

(** ** aggregateBars against the specification *)

Lemma aggregate_state (rawBars : list IOhlcvData) (n : Z) :
  buckets_inv n rawBars (fold_left (aggregateStep n) rawBars []).
Proof. exact (aggregateLoop_inv n rawBars [] [] (buckets_inv_nil n)). Qed.

Lemma buckets_values_time (n : Z) (seen : list IOhlcvData) (buckets : Buckets) :
  buckets_inv n seen buckets -> map time (map snd buckets) = map fst buckets.
Proof.
  intros Hinv. rewrite map_map. apply map_ext_in.
  intros [k v] Hin. simpl.
  eapply spec_bucketBar_time, (inv_entry _ _ _ Hinv), Hin.
Qed.

Lemma buckets_keys_spec (n : Z) (seen : list IOhlcvData) (buckets : Buckets) :
  buckets_inv n seen buckets ->
  forall k, In k (map fst buckets) <->
            exists bar, In bar seen /\ spec_bucketTime n bar = k.
Proof.
  intros Hinv k. split.
  - intros Hin. apply in_map_iff in Hin as ([k0 v] & <- & Hin). simpl.
    pose proof (inv_entry _ _ _ Hinv _ _ Hin) as E.
    apply spec_bucketBar_member in E as (first & Hf).
    unfold spec_bucketMembers in Hf. apply filter_In in Hf as [Hf E].
    exists first. split; trivial. now apply Z.eqb_eq.
  - intros (bar & Hin & <-). now apply (inv_cover _ _ _ Hinv).
Qed.

(** C3, as the code has it. For every bar list and every resolution string that is
    not the name of a member inherited from [Object.prototype],
    [aggregateBars] takes the interval from the resolution table (300 for a
    resolution the table does not hold) and returns what the specification
    describes: for each bucket time [floor(time / interval) * interval]
    that some bar falls in, one bar, seeded from the bucket's first bar at
    [time = bucketTime] and folded over the later bars of the bucket in
    input order with [high = max], [low = min], [close] of the latest bar
    and the volumes added; the bars come in strictly ascending order of
    bucket time, one per non-empty bucket. *)
Theorem aggregateBars_refines_spec :
  forall (rawBars : list IOhlcvData) (resolution : jsstring),
    inheritsMember resolution = false ->
    lookupIntervalSec resolution = Some (spec_intervalSeconds resolution) /\
    aggregateBars_any rawBars resolution =
      Timed (aggregateSpec rawBars resolution) /\
    intervalSecOf resolution = spec_intervalSeconds resolution /\
    aggregateBars rawBars resolution = aggregateSpec rawBars resolution /\
    ascending (aggregateBars rawBars resolution) /\
    (forall k, In k (map time (aggregateBars rawBars resolution)) <->
               exists bar, In bar rawBars /\
                 spec_bucketTime (spec_intervalSeconds resolution) bar = k).
Proof.
  intros rawBars resolution Hown.
  assert (Hold :
    intervalSecOf resolution = spec_intervalSeconds resolution /\
    aggregateBars rawBars resolution = aggregateSpec rawBars resolution /\
    ascending (aggregateBars rawBars resolution) /\
    (forall k, In k (map time (aggregateBars rawBars resolution)) <->
               exists bar, In bar rawBars /\
                 spec_bucketTime (spec_intervalSeconds resolution) bar = k)).
  { pose proof (intervalSecOf_spec resolution) as En.
      unfold aggregateBars, aggregateSpec. rewrite <- En.
      set (n := intervalSecOf resolution).
      pose proof (aggregate_state rawBars n) as Hinv.
      set (buckets := fold_left (aggregateStep n) rawBars []) in *.
      pose proof (buckets_values_time _ _ _ Hinv) as Htimes.
      assert (Hasc : ascending (sortByTime (map snd buckets))).
      { apply sortByTime_strict. rewrite Htimes. apply (inv_nodup _ _ _ Hinv). }
      assert (Hkeys : forall k, In k (map time (sortByTime (map snd buckets))) <->
                                exists bar, In bar rawBars /\ spec_bucketTime n bar = k).
      { intros k. rewrite <- (buckets_keys_spec _ _ _ Hinv k), <- Htimes.
        split; apply Permutation_in, Permutation_map.
        - apply sortByTime_perm.
        - apply Permutation_sym, sortByTime_perm. }
      repeat split; trivial; try apply Hkeys.
      assert (Et : map time (sortByTime (map snd buckets)) = spec_bucketTimes n rawBars).
      { apply strict_sorted_ext; trivial.
        - apply spec_bucketTimes_sorted.
        - intros k. now rewrite Hkeys, spec_bucketTimes_In. }
      rewrite <- Et. symmetry. apply flat_map_singletons.
      intros v Hv.
      apply (Permutation_in _ (sortByTime_perm _)) in Hv.
      apply in_map_iff in Hv as ([k v0] & <- & Hin). simpl.
      pose proof (inv_entry _ _ _ Hinv _ _ Hin) as E.
      now rewrite (spec_bucketBar_time _ _ _ E). }
  destruct Hold as (En & Eagg & Hrest).
  split; [now rewrite lookupIntervalSec_own, En|].
  split; [now rewrite aggregateBars_any_own, Eagg|].
  auto.
Qed.

Lemma aggregateBars_refines_spec_witness :
  lookupIntervalSec (lit "10") = Some (spec_intervalSeconds (lit "10")) /\
  aggregateBars_any [mkBar 0 1 2 0.5 1.5 10; mkBar 100 3 4 2.5 3.5 20;
                     mkBar 700 5 6 4.5 5.5 30] (lit "10") =
    Timed (aggregateSpec [mkBar 0 1 2 0.5 1.5 10; mkBar 100 3 4 2.5 3.5 20;
                          mkBar 700 5 6 4.5 5.5 30] (lit "10")) /\
  map time (aggregateSpec [mkBar 0 1 2 0.5 1.5 10; mkBar 100 3 4 2.5 3.5 20;
                           mkBar 700 5 6 4.5 5.5 30] (lit "10")) = [0; 600].
Proof.
  destruct (aggregateBars_refines_spec
              [mkBar 0 1 2 0.5 1.5 10; mkBar 100 3 4 2.5 3.5 20;
               mkBar 700 5 6 4.5 5.5 30] (lit "10") eq_refl)
    as (Hn & Hany & _).
  split; [exact Hn|]. split; [exact Hany|]. reflexivity.
Defined.

(** C3, as stated, fails for the name of an inherited member.
    ["constructor"] is not a key of
    the table, but the table inherits a member of that name: the looked-up
    value is a function, the fallback to 300 is not taken, every bucket
    time is [NaN] and the two bars, which the rule of the claim puts in the
    buckets 0 and 600, are folded into one bar whose time is [NaN]. *)
Lemma aggregateBars_inherited_name :
  inheritsMember (lit "constructor") = true /\
  lookupIntervalSec (lit "constructor") = None /\
  spec_intervalSeconds (lit "constructor") = 300 /\
  aggregateBars_any [mkBar 0 1 2 0.5 1.5 10; mkBar 600 3 4 2.5 3.5 20]
                    (lit "constructor") =
    Untimed (Some (mkNaNBar 1 4 0.5 3.5 30)) /\
  map time (aggregateSpec [mkBar 0 1 2 0.5 1.5 10; mkBar 600 3 4 2.5 3.5 20]
                          (lit "constructor")) = [0; 600] /\
  aggregateBars_any [mkBar 0 1 2 0.5 1.5 10; mkBar 600 3 4 2.5 3.5 20]
                    (lit "constructor") <>
    Timed (aggregateSpec [mkBar 0 1 2 0.5 1.5 10; mkBar 600 3 4 2.5 3.5 20]
                         (lit "constructor")).
Proof.
  split; [reflexivity|]. split; [reflexivity|]. split; [reflexivity|].
  split; [vm_compute; reflexivity|]. split; [vm_compute; reflexivity|].
  unfold aggregateBars_any.
  change (lookupIntervalSec (lit "constructor")) with (@None Z).
  discriminate.
Qed.

(** ** Aggregation at the native resolution *)






(** ** Binary64 numbers and the rationals they denote *)







Lemma SFeqb_refl_finite (s : bool) (m : positive) (e : Z) :
  SFeqb (S754_finite s m e) (S754_finite s m e) = true.
Proof.
  unfold SFeqb, SFcompare.
  rewrite Z.compare_refl, Pos.compare_cont_refl. now destruct s.
Qed.



(** ** Total volume *)

















(** ** mergeOhlcv *)

Ltac bool_to_prop :=
  repeat match goal with
  | H : _ && _ = true |- _ => apply andb_true_iff in H; destruct H
  | H : _ && _ = false |- _ => apply andb_false_iff in H; destruct H
  | H : (_ =? _) = true |- _ => apply Z.eqb_eq in H
  | H : (_ =? _) = false |- _ => apply Z.eqb_neq in H
  | H : true = false |- _ => discriminate H
  | H : false = true |- _ => discriminate H
  end.

(** Each turn of the loop consumes a bar, so the loop ends within as many
    turns as there are bars. *)
Lemma mergeLoop_enough_fuel (fuel : nat) :
  forall minuteData hourData dayData merged,
    (length minuteData + length hourData + length dayData <= fuel)%nat ->
    exists out, mergeLoop fuel minuteData hourData dayData merged = Some out.
Proof.
  induction fuel as [|fuel IH]; intros m h d merged Hlen.
  - destruct m, h, d; simpl in Hlen; try lia. simpl. eauto.
  - destruct m as [|m0 m], h as [|h0 h], d as [|d0 d]; simpl in Hlen;
      cbn [mergeLoop headTime head_min head_eqb tl push_head];
      [ eauto | .. ];
      repeat match goal with
             | |- context [if ?c then _ else _] =>
                 let E := fresh "E" in destruct c eqn:E
             end;
      try (apply IH; simpl; lia);
      exfalso; bool_to_prop; lia.
Qed.

Lemma mergeLoop_terminates (minuteData hourData dayData : list IOhlcvData) :
  mergeLoop (mergeFuel minuteData hourData dayData)
            minuteData hourData dayData [] =
  Some (mergeOhlcv minuteData hourData dayData).
Proof.
  unfold mergeOhlcv.
  destruct (mergeLoop_enough_fuel (mergeFuel minuteData hourData dayData)
              minuteData hourData dayData [] (Nat.le_refl _)) as [out ->].
  reflexivity.
Qed.

Lemma head_eqb_eq (a b : HeadTime) : head_eqb a b = true <-> a = b.
Proof.
  destruct a, b; simpl; try (split; congruence).
  rewrite Z.eqb_eq. split; congruence.
Qed.

Lemma head_min_le_l (a b : HeadTime) : head_le (head_min a b) a.
Proof. destruct a, b; simpl; trivial; lia. Qed.

Lemma head_min_le_r (a b : HeadTime) : head_le (head_min a b) b.
Proof. destruct a, b; simpl; trivial; lia. Qed.

Lemma head_le_trans (a b c : HeadTime) : head_le a b -> head_le b c -> head_le a c.
Proof. destruct a, b, c; simpl; trivial; try lia; contradiction. Qed.

Lemma head_min_cases (a b : HeadTime) : head_min a b = a \/ head_min a b = b.
Proof.
  destruct a as [x|], b as [y|]; simpl; auto.
  destruct (Z.min_spec x y) as [[_ ->]|[_ ->]]; auto.
Qed.

Lemma ascending_tail (bar : IOhlcvData) (rest : list IOhlcvData) :
  ascending (bar :: rest) -> ascending rest /\ after (time bar) rest.
Proof.
  unfold ascending, after. simpl. intros H.
  apply StronglySorted_inv in H as [H F]. split; trivial.
  rewrite Forall_forall in *. intros b Hb. apply F. now apply in_map.
Qed.

Lemma advance_after (t : Z) (rest : list IOhlcvData) :
  ascending rest -> head_le (Finite t) (headTime rest) ->
  ascending (advance t rest) /\ after t (advance t rest).
Proof.
  unfold advance. intros Hasc Hle.
  destruct rest as [|bar rest]; simpl in *.
  - split; [exact Hasc|constructor].
  - apply ascending_tail in Hasc as Htail. destruct Htail as [Hrest Hafter].
    destruct (Z.eqb_spec (time bar) t) as [<-|Hne].
    + auto.
    + split; trivial. constructor; [lia|].
      eapply Forall_impl; [|exact Hafter]. simpl. intros; lia.
Qed.

Lemma advance_incl (t : Z) (rest : list IOhlcvData) :
  forall b, In b (advance t rest) -> In b rest.
Proof.
  unfold advance. destruct (head_eqb _ _); trivial.
  destruct rest; simpl; auto.
Qed.

Lemma mergeLoop_step (fuel : nat) (ms hs ds merged : list IOhlcvData) (t : Z) :
  head_min (headTime ms) (head_min (headTime hs) (headTime ds)) = Finite t ->
  ~ (headTime ds = Finite t /\ headTime ms = Finite t /\ headTime hs <> Finite t) ->
  exists w,
    mergeLoop (S fuel) ms hs ds merged =
    mergeLoop fuel (advance t ms) (advance t hs) (advance t ds) (merged ++ [w]) /\
    time w = t /\
    (In w ds \/
     (headTime ds <> Finite t /\
      (In w hs \/ (headTime hs <> Finite t /\ In w ms)))).
Proof.
  intros Hmin Hnobug. unfold advance.
  destruct ms as [|m0 ms], hs as [|h0 hs], ds as [|d0 ds];
    cbn [mergeLoop headTime] in *; try discriminate Hmin;
    rewrite Hmin; cbn [head_eqb];
    repeat match goal with
           | |- context [Z.eqb ?a t] => destruct (Z.eqb_spec a t)
           end;
    cbn [andb tl push_head].
  all: try (eexists; split; [reflexivity|]; split; [assumption|];
            first [ left; left; reflexivity
                  | right; split; [congruence|];
                    first [ left; left; reflexivity
                          | right; split; [congruence|]; left; reflexivity ] ]).
  all: exfalso; try (apply Hnobug; repeat split; congruence);
    simpl in Hmin; injection Hmin as Hmin; lia.
Qed.

Lemma headTime_In (rest : list IOhlcvData) (t : Z) :
  headTime rest = Finite t -> exists b, In b rest /\ time b = t.
Proof.
  destruct rest as [|b rest]; simpl; [discriminate|].
  intros [= <-]. exists b. auto.
Qed.

Lemma ascending_head_le (rest : list IOhlcvData) (x : IOhlcvData) :
  ascending rest -> In x rest -> head_le (headTime rest) (Finite (time x)).
Proof.
  destruct rest as [|b rest]; simpl; [contradiction|].
  intros Hasc [<-|Hx]; [lia|].
  apply ascending_tail in Hasc as [_ Hafter].
  unfold after in Hafter. rewrite Forall_forall in Hafter.
  specialize (Hafter x Hx). lia.
Qed.

Lemma head_at_min (rest : list IOhlcvData) (t : Z) (z : IOhlcvData) :
  ascending rest -> head_le (Finite t) (headTime rest) ->
  In z rest -> time z = t -> headTime rest = Finite t.
Proof.
  intros Hasc Hle Hz Ht.
  pose proof (ascending_head_le _ _ Hasc Hz) as Hhead.
  destruct (headTime rest) as [h|]; simpl in *; [|contradiction].
  f_equal. lia.
Qed.

Lemma advance_or (t : Z) (rest : list IOhlcvData) (x : IOhlcvData) :
  In x rest -> In x (advance t rest) \/ time x = t.
Proof.
  unfold advance. destruct rest as [|b rest]; simpl; [contradiction|].
  destruct (Z.eqb_spec (time b) t) as [E|_]; [|auto].
  intros [<-|Hx]; auto.
Qed.

Lemma after_In (t : Z) (rest : list IOhlcvData) (x : IOhlcvData) :
  after t rest -> In x rest -> t < time x.
Proof. unfold after. rewrite Forall_forall. auto. Qed.

Lemma head_min_finite (ms hs ds : list IOhlcvData) :
  ms <> [] \/ hs <> [] \/ ds <> [] ->
  exists t, head_min (headTime ms) (head_min (headTime hs) (headTime ds)) = Finite t.
Proof.
  destruct ms, hs, ds; simpl; eauto.
  intros [H|[H|H]]; congruence.
Qed.

Lemma merge_inv_step (M H D ms hs ds merged : list IOhlcvData) (t : Z)
    (w : IOhlcvData) :
  merge_inv M H D ms hs ds merged ->
  head_min (headTime ms) (head_min (headTime hs) (headTime ds)) = Finite t ->
  time w = t ->
  (In w ds \/
   (headTime ds <> Finite t /\
    (In w hs \/ (headTime hs <> Finite t /\ In w ms)))) ->
  merge_inv M H D (advance t ms) (advance t hs) (advance t ds) (merged ++ [w]).
Proof.
  intros Hinv Hmin Hw Hfrom.
  assert (Hlm : head_le (Finite t) (headTime ms)).
  { rewrite <- Hmin. apply head_min_le_l. }
  assert (Hlh : head_le (Finite t) (headTime hs)).
  { rewrite <- Hmin. eapply head_le_trans; [apply head_min_le_r|apply head_min_le_l]. }
  assert (Hld : head_le (Finite t) (headTime ds)).
  { rewrite <- Hmin. eapply head_le_trans; [apply head_min_le_r|apply head_min_le_r]. }
  destruct (advance_after t ms (mi_asc_m _ _ _ _ _ _ _ Hinv) Hlm) as [Am Fm].
  destruct (advance_after t hs (mi_asc_h _ _ _ _ _ _ _ Hinv) Hlh) as [Ah Fh].
  destruct (advance_after t ds (mi_asc_d _ _ _ _ _ _ _ Hinv) Hld) as [Ad Fd].
  assert (Hbelow : forall b, In b merged -> time b < time w).
  { intros b Hb. destruct Hfrom as [Hd|[_ [Hh|[_ Hm]]]].
    - exact (mi_below_d _ _ _ _ _ _ _ Hinv b w Hb Hd).
    - exact (mi_below_h _ _ _ _ _ _ _ Hinv b w Hb Hh).
    - exact (mi_below_m _ _ _ _ _ _ _ Hinv b w Hb Hm). }
  assert (Hnew : forall rest, below merged rest -> after t (advance t rest) ->
                              below (merged ++ [w]) (advance t rest)).
  { intros rest Hb Ha b c Hbin Hc.
    apply in_app_or in Hbin as [Hbin|[<-|[]]].
    - apply (Hb b c Hbin). now apply advance_incl in Hc.
    - rewrite Hw. exact (after_In _ _ _ Ha Hc). }
  assert (Hseen : forall (L rest : list IOhlcvData),
             (forall x, In x L -> In x rest \/ exists b, In b merged /\ time b = time x) ->
             forall x, In x L ->
               In x (advance t rest) \/
               exists b, In b (merged ++ [w]) /\ time b = time x).
  { intros L rest Hold x Hx.
    destruct (Hold x Hx) as [Hin|(b & Hb & Eb)].
    - destruct (advance_or t rest x Hin) as [Hadv|Et]; [now left|].
      right. exists w. split; [apply in_or_app; right; now left|congruence].
    - right. exists b. split; [apply in_or_app; now left|trivial]. }
  assert (Hgone : forall (L rest : list IOhlcvData),
             ascending rest -> head_le (Finite t) (headTime rest) ->
             headTime rest <> Finite t ->
             (forall x, In x L -> In x rest \/ exists b, In b merged /\ time b = time x) ->
             forall x, In x L -> time x <> time w).
  { intros L rest Hasc Hle Hhead Hold x Hx Ex.
    destruct (Hold x Hx) as [Hin|(b & Hb & Eb)].
    - apply Hhead. eapply head_at_min; eauto. congruence.
    - specialize (Hbelow b Hb). lia. }
  constructor; trivial.
  - (* the output so far stays ascending *)
    apply ascending_app.
    + exact (mi_asc _ _ _ _ _ _ _ Hinv).
    + unfold ascending. simpl. repeat constructor.
    + intros a b Ha [<-|[]]. auto.
  - apply Hnew; trivial. exact (mi_below_m _ _ _ _ _ _ _ Hinv).
  - apply Hnew; trivial. exact (mi_below_h _ _ _ _ _ _ _ Hinv).
  - apply Hnew; trivial. exact (mi_below_d _ _ _ _ _ _ _ Hinv).
  - intros x y Hx Hy Exy.
    destruct (mi_tie _ _ _ _ _ _ _ Hinv x y
                (advance_incl _ _ _ Hx) (advance_incl _ _ _ Hy) Exy)
      as (z & Hz & Ez).
    destruct (advance_or t hs z Hz) as [Hadv|Et]; [eauto|].
    pose proof (after_In _ _ _ Fd Hx). lia.
  - intros x Hx. apply (mi_incl_m _ _ _ _ _ _ _ Hinv). now apply advance_incl in Hx.
  - intros x Hx. apply (mi_incl_h _ _ _ _ _ _ _ Hinv). now apply advance_incl in Hx.
  - intros x Hx. apply (mi_incl_d _ _ _ _ _ _ _ Hinv). now apply advance_incl in Hx.
  - apply (Hseen M ms), (mi_seen_m _ _ _ _ _ _ _ Hinv).
  - apply (Hseen H hs), (mi_seen_h _ _ _ _ _ _ _ Hinv).
  - apply (Hseen D ds), (mi_seen_d _ _ _ _ _ _ _ Hinv).
  - intros b Hb. apply in_app_or in Hb as [Hb|[<-|[]]].
    + exact (mi_priority _ _ _ _ _ _ _ Hinv b Hb).
    + destruct Hfrom as [Hd|[Hnd [Hh|[Hnh Hm]]]].
      * left. exact (mi_incl_d _ _ _ _ _ _ _ Hinv _ Hd).
      * right. left. split; [exact (mi_incl_h _ _ _ _ _ _ _ Hinv _ Hh)|].
        apply (Hgone D ds); trivial.
        -- exact (mi_asc_d _ _ _ _ _ _ _ Hinv).
        -- exact (mi_seen_d _ _ _ _ _ _ _ Hinv).
      * right. right. split; [exact (mi_incl_m _ _ _ _ _ _ _ Hinv _ Hm)|]. split.
        -- apply (Hgone D ds); trivial.
           ++ exact (mi_asc_d _ _ _ _ _ _ _ Hinv).
           ++ exact (mi_seen_d _ _ _ _ _ _ _ Hinv).
        -- apply (Hgone H hs); trivial.
           ++ exact (mi_asc_h _ _ _ _ _ _ _ Hinv).
           ++ exact (mi_seen_h _ _ _ _ _ _ _ Hinv).
Qed.

Lemma list_eq_dec_nil (ms hs ds : list IOhlcvData) :
  (ms = [] /\ hs = [] /\ ds = []) \/ (ms <> [] \/ hs <> [] \/ ds <> []).
Proof.
  destruct ms, hs, ds; auto; right;
    first [left; discriminate | right; left; discriminate | right; right; discriminate].
Qed.

Lemma merge_inv_no_lost_tie (M H D ms hs ds merged : list IOhlcvData) (t : Z) :
  merge_inv M H D ms hs ds merged ->
  head_min (headTime ms) (head_min (headTime hs) (headTime ds)) = Finite t ->
  ~ (headTime ds = Finite t /\ headTime ms = Finite t /\ headTime hs <> Finite t).
Proof.
  intros Hinv Hmin (Hd & Hm & Hh). apply Hh.
  apply headTime_In in Hd as (x & Hx & Ex).
  apply headTime_In in Hm as (y & Hy & Ey).
  destruct (mi_tie _ _ _ _ _ _ _ Hinv x y Hx Hy) as (z & Hz & Ez); [congruence|].
  apply (head_at_min hs t z); trivial.
  - exact (mi_asc_h _ _ _ _ _ _ _ Hinv).
  - rewrite <- Hmin.
    eapply head_le_trans; [apply head_min_le_r|apply head_min_le_l].
  - congruence.
Qed.

Lemma mergeLoop_inv (M H D : list IOhlcvData) (fuel : nat) :
  forall ms hs ds merged out,
    merge_inv M H D ms hs ds merged ->
    mergeLoop fuel ms hs ds merged = Some out ->
    merge_inv M H D [] [] [] out.
Proof.
  induction fuel as [|fuel IH]; intros ms hs ds merged out Hinv Hrun.
  - destruct ms, hs, ds; simpl in Hrun; try discriminate.
    now injection Hrun as <-.
  - destruct (list_eq_dec_nil ms hs ds) as [(-> & -> & ->)|Hne].
    + simpl in Hrun. now injection Hrun as <-.
    + destruct (head_min_finite ms hs ds Hne) as [t Hmin].
      destruct (mergeLoop_step fuel ms hs ds merged t Hmin
                  (merge_inv_no_lost_tie _ _ _ _ _ _ _ t Hinv Hmin))
        as (w & Estep & Hw & Hfrom).
      rewrite Estep in Hrun.
      exact (IH _ _ _ _ _ (merge_inv_step _ _ _ _ _ _ _ t w Hinv Hmin Hw Hfrom) Hrun).
Qed.

(** X25. Apart from the tie of day and minute that the hour series does not
    share, [mergeOhlcv] is the priority merge: on ascending inputs in which
    every timestamp common to the day and minute series is in the hour
    series too, the output is strictly ascending, each of its bars comes
    from the highest-priority series that has its timestamp, and every
    input timestamp appears in it. *)
Theorem mergeOhlcv_priority_merge :
  forall M H D : list IOhlcvData,
    ascending M -> ascending H -> ascending D ->
    (forall x y, In x D -> In y M -> time x = time y ->
                 exists z, In z H /\ time z = time x) ->
    let out := mergeOhlcv M H D in
    ascending out /\
    (forall b, In b out ->
       In b D \/
       (In b H /\ forall x, In x D -> time x <> time b) \/
       (In b M /\ (forall x, In x D -> time x <> time b) /\
                  (forall x, In x H -> time x <> time b))) /\
    (forall x, In x M \/ In x H \/ In x D ->
               exists b, In b out /\ time b = time x).
Proof.
  intros M H D HM HH HD Htie out.
  assert (Hinit : merge_inv M H D M H D []).
  { constructor; trivial; try (intros ? ? []); try (intros ? []); auto.
    - unfold ascending. constructor.
    - intros x Hx. exact Hx.
    - intros x Hx. exact Hx.
    - intros x Hx. exact Hx. }
  pose proof (mergeLoop_inv M H D _ _ _ _ _ _ Hinit (mergeLoop_terminates M H D))
    as Hend.
  fold out in Hend.
  split; [exact (mi_asc _ _ _ _ _ _ _ Hend)|]. split.
  - exact (mi_priority _ _ _ _ _ _ _ Hend).
  - intros x [Hx|[Hx|Hx]].
    + destruct (mi_seen_m _ _ _ _ _ _ _ Hend x Hx) as [[]|Hb]; exact Hb.
    + destruct (mi_seen_h _ _ _ _ _ _ _ Hend x Hx) as [[]|Hb]; exact Hb.
    + destruct (mi_seen_d _ _ _ _ _ _ _ Hend x Hx) as [[]|Hb]; exact Hb.
Qed.

(** The ties that have a branch of their own: the bar of the
    highest-priority series is emitted and the others at that timestamp are
    dropped. *)
Lemma mergeOhlcv_handled_ties (t : Z) (minuteBar hourBar dayBar : IOhlcvData) :
  mergeOhlcv [withTime minuteBar t] [withTime hourBar t] [withTime dayBar t] =
    [withTime dayBar t] /\
  mergeOhlcv [withTime minuteBar t] [withTime hourBar t] [] =
    [withTime hourBar t] /\
  mergeOhlcv [] [withTime hourBar t] [withTime dayBar t] =
    [withTime dayBar t].
Proof.
  unfold mergeOhlcv, mergeFuel. simpl.
  rewrite !Z.min_id, Z.eqb_refl. simpl. auto.
Qed.

(** C1, on the code. A timestamp that the day and the minute series share
    and the hour series does not have at its head reaches the branch
    [tDay === minT], which advances the day cursor only: the day bar is
    emitted and the minute bar of the same timestamp is emitted after it,
    not dropped. *)
Theorem mergeOhlcv_day_minute_collision :
  forall (t : Z) (minuteBar dayBar : IOhlcvData),
    mergeOhlcv [withTime minuteBar t] [] [withTime dayBar t] =
    [withTime dayBar t; withTime minuteBar t].
Proof.
  intros t minuteBar dayBar.
  unfold mergeOhlcv, mergeFuel. simpl.
  rewrite Z.min_id, Z.eqb_refl. reflexivity.
Qed.

(** C2, on the code. On the same input, three series each strictly
    ascending are merged into a series that holds the shared timestamp
    twice, so its times are not strictly increasing. *)
Theorem mergeOhlcv_duplicate_time :
  forall (t : Z) (minuteBar dayBar : IOhlcvData),
    ascending [withTime minuteBar t] /\ ascending [] /\
    ascending [withTime dayBar t] /\
    map time (mergeOhlcv [withTime minuteBar t] [] [withTime dayBar t]) = [t; t] /\
    ~ ascending (mergeOhlcv [withTime minuteBar t] [] [withTime dayBar t]).
Proof.
  intros t minuteBar dayBar.
  assert (E : mergeOhlcv [withTime minuteBar t] [] [withTime dayBar t] =
              [withTime dayBar t; withTime minuteBar t]).
  { unfold mergeOhlcv, mergeFuel. simpl.
    rewrite Z.min_id, Z.eqb_refl. reflexivity. }
  rewrite E. unfold ascending. simpl.
  repeat split; try (repeat constructor).
  intros H. apply StronglySorted_inv in H as [_ H].
  apply Forall_inv in H. lia.
Qed.

(** ** formatCryptoPrice *)

Lemma formatCryptoPrice_not_finite Number_toString (price : float)
    (signPositive : option bool) :
  isFinite price = false \/ isNaN price = true ->
  formatCryptoPrice Number_toString price signPositive = lit "0".
Proof.
  intros H. unfold formatCryptoPrice.
  destruct H as [-> | ->]; simpl; [reflexivity|].
  now rewrite orb_true_r.
Qed.

(** C6. The boundary contract of [formatCryptoPrice]: a price that is not
    finite or is NaN gives ["0"]; the price 0 gives ["0"]; [-0.05] gives
    ["-0.05"], with a leading ["-"] and no ["+"], whatever [signPositive]
    is; [1234.5] gives ["1234.5"]; and [0.000000942] gives ["0.0₆942"],
    which holds the subscript six (code unit 8326) followed by ["942"]. *)
Theorem formatCryptoPrice_boundaries :
  forall Number_toString : float -> jsstring,
    (forall price signPositive,
        isFinite price = false \/ isNaN price = true ->
        formatCryptoPrice Number_toString price signPositive = lit "0") /\
    (forall signPositive,
        formatCryptoPrice Number_toString 0%float signPositive = lit "0") /\
    (forall signPositive,
        let shown := formatCryptoPrice Number_toString (-0.05)%float signPositive in
        shown = lit "-0.05" /\
        startsWith (lit "-") shown = true /\
        includes (lit "+") shown = false) /\
    formatCryptoPrice Number_toString 1234.5%float None = lit "1234.5" /\
    formatCryptoPrice Number_toString 0.000000942%float None =
      lit "0.0" ++ [8326%N] ++ lit "942" /\
    (forall signPositive,
        includes ([8326%N] ++ lit "942")
          (formatCryptoPrice Number_toString 0.000000942%float signPositive)
        = true).
Proof.
  intros Number_toString.
  split; [|split; [|split; [|split; [|split]]]].
  - intros price signPositive H. now apply formatCryptoPrice_not_finite.
  - intros [[|]|]; vm_compute; reflexivity.
  - intros [[|]|]; vm_compute; repeat split.
  - vm_compute; reflexivity.
  - vm_compute; reflexivity.
  - intros [[|]|]; vm_compute; reflexivity.
Qed.

Lemma formatCryptoPrice_boundaries_witness :
  formatCryptoPrice (fun _ => lit "1e+21") nan (Some true) = lit "0" /\
  formatCryptoPrice (fun _ => lit "1e+21") infinity None = lit "0".
Proof.
  split.
  - apply (proj1 (formatCryptoPrice_boundaries (fun _ => lit "1e+21"))).
    right. reflexivity.
  - apply (proj1 (formatCryptoPrice_boundaries (fun _ => lit "1e+21"))).
    left. reflexivity.
Defined.

(** ** Strings: prefixes, trimming and splitting *)

Lemma startsWith_app (p l r : jsstring) :
  startsWith p l = true -> startsWith p (l ++ r) = true.
Proof.
  revert l. induction p as [|x p IH]; intros [|y l]; simpl; trivial.
  - discriminate.
  - intros H. apply andb_true_iff in H as [-> H]. simpl. auto.
Qed.

Lemma startsWith_app_long (p l r : jsstring) :
  (length p <= length l)%nat -> startsWith p (l ++ r) = startsWith p l.
Proof.
  revert l. induction p as [|x p IH]; intros [|y l]; simpl; intros H; trivial.
  - lia.
  - rewrite IH by lia. reflexivity.
Qed.

Lemma endsWith_cons (p : jsstring) (x : N) (l : jsstring) :
  endsWith p (x :: l) = false -> endsWith p l = false.
Proof.
  unfold endsWith. simpl. intros H.
  destruct (startsWith (rev p) (rev l)) eqn:E; trivial.
  rewrite (startsWith_app _ _ _ E) in H. discriminate.
Qed.

Lemma isSep_startsWith (a b c : N) (rest : jsstring) :
  isSep a b c = startsWith SEP (a :: b :: c :: rest).
Proof.
  unfold isSep, SEP. simpl.
  rewrite (N.eqb_sym a), (N.eqb_sym b), (N.eqb_sym c), andb_true_r, andb_assoc.
  reflexivity.
Qed.

Lemma startsWith_SEP_short1 (a : N) : startsWith SEP [a] = false.
Proof. unfold SEP. simpl. apply andb_false_r. Qed.

Lemma startsWith_SEP_short2 (a b : N) : startsWith SEP [a; b] = false.
Proof. unfold SEP. simpl. now rewrite !andb_false_r. Qed.

Lemma startsWith_SEP_space (a : N) (rest : jsstring) :
  startsWith SEP (a :: 32%N :: rest) = false.
Proof. unfold SEP. simpl. apply andb_false_r. Qed.

Lemma splitSep_cons (a : N) (s cur : jsstring) :
  splitSep (a :: s) cur =
  if startsWith SEP (a :: s) then cur :: splitSep (skipn 2 s) []
  else splitSep s (cur ++ [a]).
Proof.
  destruct s as [|b [|c rest]].
  - now rewrite startsWith_SEP_short1.
  - now rewrite startsWith_SEP_short2.
  - rewrite <- isSep_startsWith. reflexivity.
Qed.

Lemma includes_cons (p : jsstring) (a : N) (s : jsstring) :
  includes p (a :: s) = startsWith p (a :: s) || includes p s.
Proof. reflexivity. Qed.

(** A string without the separator is one segment. *)
Lemma splitSep_no_sep (s : jsstring) :
  includes SEP s = false -> forall cur, splitSep s cur = [cur ++ s].
Proof.
  induction s as [|a s IH]; intros H cur.
  - simpl. now rewrite app_nil_r.
  - rewrite includes_cons in H. apply orb_false_iff in H as [H1 H2].
    rewrite splitSep_cons, H1, IH by trivial. now rewrite <- app_assoc.
Qed.

(** No separator inside and no [" /"] at the end: no occurrence of the
    separator starts inside the string even when a space follows it. *)
Lemma includes_before_space (w : jsstring) :
  includes SEP w = false -> endsWith (lit " /") w = false ->
  includes SEP (w ++ [32%N]) = false.
Proof.
  induction w as [|x w IH]; intros Hinc Hend.
  - reflexivity.
  - rewrite includes_cons in Hinc. apply orb_false_iff in Hinc as [H1 H2].
    simpl app. rewrite includes_cons, IH; trivial.
    2: now apply endsWith_cons in Hend.
    rewrite orb_false_r.
    destruct w as [|b [|c rest]].
    + apply startsWith_SEP_space.
    + unfold endsWith in Hend. cbn -[N.eqb] in Hend. unfold SEP. cbn -[N.eqb].
      destruct (N.eqb 32 x), (N.eqb 47 b); simpl in *; congruence.
    + simpl app. now rewrite <- isSep_startsWith, (isSep_startsWith _ _ _ rest).
Qed.

(** A segment that the separator follows is read up to the separator. *)
Lemma splitSep_segment (w : jsstring) :
  includes SEP (w ++ [32%N]) = false ->
  forall cur rest,
    splitSep (w ++ SEP ++ rest) cur = (cur ++ w) :: splitSep rest [].
Proof.
  induction w as [|x w IH]; intros H cur rest.
  - simpl. now rewrite app_nil_r.
  - simpl app in H. rewrite includes_cons in H.
    apply orb_false_iff in H as [H1 H2].
    rewrite <- app_comm_cons, splitSep_cons.
    assert (E : startsWith SEP (x :: w ++ SEP ++ rest) = false).
    { destruct w as [|b w].
      - apply startsWith_SEP_space.
      - replace (x :: (b :: w) ++ SEP ++ rest)
          with ((x :: b :: w ++ [32%N]) ++ (47%N :: 32%N :: rest))
          by (simpl; now rewrite <- app_assoc).
        rewrite startsWith_app_long; [exact H1|].
        simpl. rewrite length_app. simpl. lia. }
    rewrite E, IH by trivial. now rewrite <- app_assoc.
Qed.

(** A name that does not end in [" /"]: whatever separators it holds, the
    separator that follows it is found. *)
Lemma splitSep_name (k : nat) :
  forall name,
    (length name <= k)%nat -> endsWith (lit " /") name = false ->
    forall cur rest,
      exists pre, splitSep (name ++ SEP ++ rest) cur = pre ++ splitSep rest []
                  /\ pre <> [].
Proof.
  induction k as [|k IH]; intros name Hlen Hend cur rest.
  - destruct name; [|simpl in Hlen; lia].
    exists [cur]. split; [reflexivity|discriminate].
  - destruct name as [|x name].
    + exists [cur]. split; [reflexivity|discriminate].
    + rewrite <- app_comm_cons, splitSep_cons.
      destruct (startsWith SEP (x :: name ++ SEP ++ rest)) eqn:E.
      * destruct name as [|b [|c name]].
        -- change ([] ++ SEP ++ rest) with (32%N :: 47%N :: 32%N :: rest) in E.
           now rewrite startsWith_SEP_space in E.
        -- exfalso. unfold endsWith in Hend. unfold SEP in E.
           cbn -[N.eqb] in Hend, E.
           destruct (N.eqb 32 x), (N.eqb 47 b); simpl in *; congruence.
        -- change (skipn 2 ((b :: c :: name) ++ SEP ++ rest))
             with (name ++ SEP ++ rest).
           destruct (IH name) with (cur := @nil N) (rest := rest)
             as (pre & Epre & _).
           ++ simpl in Hlen. lia.
           ++ now do 3 apply endsWith_cons in Hend.
           ++ exists (cur :: pre). rewrite Epre. split; [reflexivity|discriminate].
      * apply IH; [simpl in Hlen; lia|].
        now apply endsWith_cons in Hend.
Qed.

Lemma trimStart_nil (s : jsstring) :
  trimStart s = [] -> forall c, In c s -> isWhiteSpace c = true.
Proof.
  induction s as [|x s IH]; simpl; intros H c Hc; [contradiction|].
  destruct (isWhiteSpace x) eqn:E; [|discriminate].
  destruct Hc as [<-|Hc]; auto.
Qed.

Lemma trimStart_In (s : jsstring) (c : N) :
  In c s -> isWhiteSpace c = false -> In c (trimStart s).
Proof.
  induction s as [|x s IH]; simpl; intros Hc Hws; trivial.
  destruct (isWhiteSpace x) eqn:E; [|exact Hc].
  destruct Hc as [->|Hc]; [congruence|auto].
Qed.

Lemma trim_nonEmpty (s : jsstring) (c : N) :
  In c s -> isWhiteSpace c = false -> nonEmpty (trim s) = true.
Proof.
  intros Hc Hws. unfold trim, trimEnd.
  destruct (rev (trimStart (rev (trimStart s)))) as [|y r] eqn:E; [|reflexivity].
  exfalso.
  apply (f_equal (@rev N)) in E. rewrite rev_involutive in E. simpl in E.
  pose proof (trimStart_nil _ E c) as H.
  rewrite H in Hws; [discriminate|].
  apply in_rev. rewrite rev_involutive. now apply trimStart_In.
Qed.

Lemma trimStart_length (s : jsstring) : (length (trimStart s) <= length s)%nat.
Proof.
  induction s as [|x s IH]; simpl; trivial.
  destruct (isWhiteSpace x); simpl; lia.
Qed.

Lemma trim_length (s : jsstring) : (length (trim s) <= length s)%nat.
Proof.
  unfold trim, trimEnd. rewrite length_rev.
  etransitivity; [apply trimStart_length|].
  rewrite length_rev. apply trimStart_length.
Qed.

Lemma trim_all_whitespace (s : jsstring) :
  forallb isWhiteSpace s = true -> trim s = [].
Proof.
  intros H. unfold trim, trimEnd.
  assert (E : trimStart s = []).
  { induction s as [|x s IH]; simpl in *; trivial.
    apply andb_true_iff in H as [-> H]. auto. }
  rewrite E. reflexivity.
Qed.

Lemma last_two {A : Type} (l : list A) (a b d : A) : last (l ++ [a; b]) d = b.
Proof.
  change (l ++ [a; b]) with (l ++ [a] ++ [b]). rewrite app_assoc.
  apply last_last.
Qed.

Lemma removelast_two {A : Type} (l : list A) (a b : A) :
  removelast (l ++ [a; b]) = l ++ [a].
Proof.
  change (l ++ [a; b]) with (l ++ [a] ++ [b]). rewrite app_assoc.
  apply removelast_last.
Qed.

(** ** The compare-ticker codec *)

Lemma nonEmpty_false (s : jsstring) : nonEmpty s = false <-> s = [].
Proof. destruct s; simpl; split; congruence. Qed.

Lemma nonEmpty_length (s : jsstring) :
  (1 <= length s)%nat -> nonEmpty s = true.
Proof. destruct s; simpl; [lia|reflexivity]. Qed.

Lemma last_map {A B : Type} (f : A -> B) (l : list A) (d : A) :
  last (map f l) (f d) = f (last l d).
Proof.
  induction l as [|x [|y l] IH]; simpl in *; trivial.
Qed.

Lemma removelast_map {A B : Type} (f : A -> B) (l : list A) :
  removelast (map f l) = map f (removelast l).
Proof.
  induction l as [|x [|y l] IH]; simpl in *; trivial.
  now rewrite IH.
Qed.

Lemma last_map_trim (parts : list jsstring) :
  last (map trim parts) [] = trim (last parts []).
Proof. exact (last_map trim parts []). Qed.

(** The decision [parseCompareTicker] takes, on the raw segments. *)
Lemma parseCompareTicker_decision (ticker : jsstring) :
  parseCompareTicker ticker =
  let parts := split_slash ticker in
  let addr := trim (last parts []) in
  let net := trim (last (removelast parts) []) in
  if nonEmpty (trim ticker) && (3 <=? length parts)%nat &&
     (8 <=? length addr)%nat && nonEmpty net
  then Some (mkTarget addr net) else None.
Proof.
  unfold parseCompareTicker, tickerParts, lastPart, secondLastPart.
  rewrite removelast_map, length_map, !last_map_trim. cbv zeta.
  destruct (nonEmpty (trim ticker)); cbn [negb andb]; trivial.
  destruct (3 <=? length (split_slash ticker))%nat; cbn [andb]; trivial.
  destruct (8 <=? length (trim (last (split_slash ticker) [])))%nat eqn:E8;
    cbn [andb].
  - rewrite nonEmpty_length; [reflexivity|].
    apply Nat.leb_le in E8. lia.
  - now rewrite andb_false_r.
Qed.

(** C7, as the code has it. [parseCompareTicker (buildCompareTicker name
    network address)] gives back [{address, network}] whenever the trimmed
    name does not end in [" /"] (it may hold separators), the network is
    not empty, holds no [" / "], does not end in [" /"] and has no
    surrounding whitespace, and the address has at least 8 code units,
    holds no [" / "] and has no surrounding whitespace. *)
Theorem codec_roundtrip :
  forall poolName net addr : jsstring,
    endsWith (lit " /") (trim poolName) = false ->
    nonEmpty net = true ->
    includes SEP net = false ->
    endsWith (lit " /") net = false ->
    trim net = net ->
    (8 <= length addr)%nat ->
    includes SEP addr = false ->
    trim addr = addr ->
    parseCompareTicker (buildCompareTicker poolName net addr) =
    Some (mkTarget addr net).
Proof.
  intros poolName net addr Hname Hne Hinc Hend Htrim Hlen Hainc Hatrim.
  rewrite parseCompareTicker_decision. cbv zeta.
  assert (Hticker : nonEmpty (trim (buildCompareTicker poolName net addr)) = true).
  { apply (trim_nonEmpty _ 47%N); [|reflexivity].
    unfold buildCompareTicker, SEP. apply in_or_app. right. simpl. auto. }
  destruct (splitSep_name _ (trim poolName) (Nat.le_refl _) Hname []
              (net ++ SEP ++ addr)) as (pre & Epre & Hpre).
  assert (Eparts : split_slash (buildCompareTicker poolName net addr) =
                   pre ++ [net; addr]).
  { unfold split_slash, buildCompareTicker. rewrite Epre.
    rewrite splitSep_segment by now apply includes_before_space.
    now rewrite splitSep_no_sep. }
  rewrite Hticker, Eparts, removelast_two, last_two, last_last.
  rewrite Htrim, Hatrim, Hne.
  assert (H3 : (3 <=? length (pre ++ [net; addr]))%nat = true).
  { apply Nat.leb_le. rewrite length_app. simpl.
    destruct pre; [congruence|simpl; lia]. }
  rewrite H3, (proj2 (Nat.leb_le _ _) Hlen). reflexivity.
Qed.

Lemma codec_roundtrip_witness :
  parseCompareTicker
    (buildCompareTicker (lit "  BIBI / WBNB ") (lit "bsc") (lit "0xABCDEF12")) =
  Some (mkTarget (lit "0xABCDEF12") (lit "bsc")).
Proof.
  apply (codec_roundtrip (lit "  BIBI / WBNB ") (lit "bsc") (lit "0xABCDEF12"));
    try reflexivity.
  simpl. lia.
Defined.

(** C7, as stated, fails for a network that ends in [" /"]: it holds no
    [" / "] and has no surrounding whitespace, yet with the separator that
    follows it forms an earlier occurrence of [" / "], so the boundary
    between network and address moves. *)
Lemma codec_roundtrip_network_slash :
  let poolName := lit "BIBI" in
  let net := lit "x /" in
  let addr := lit "12345678" in
  includes SEP (trim poolName) = false /\
  nonEmpty net = true /\ includes SEP net = false /\ trim net = net /\
  (8 <= length addr)%nat /\ includes SEP addr = false /\ trim addr = addr /\
  parseCompareTicker (buildCompareTicker poolName net addr) =
    Some (mkTarget (lit "/ 12345678") (lit "x")) /\
  parseCompareTicker (buildCompareTicker poolName net addr) <>
    Some (mkTarget addr net).
Proof.
  cbv zeta. do 4 (split; [reflexivity|]).
  split; [apply Nat.leb_le; reflexivity|].
  do 3 (split; [reflexivity|]).
  vm_compute. discriminate.
Qed.

(** C8, as stated, fails when a segment is not empty but blank: the
    ticker below is not blank, has three segments, a last segment of 10
    code units and a second-to-last segment that is a space, so it is none
    of the malformed inputs the claim lists, and yet the result is [null],
    because the code trims each segment before it checks it. *)
Lemma parseCompareTicker_blank_network :
  let ticker := lit "BIBI /   / 0xABCDEF12" in
  let parts := split_slash ticker in
  parts = [lit "BIBI"; lit " "; lit "0xABCDEF12"] /\
  trim ticker <> [] /\
  ~ (length parts < 3)%nat /\
  ~ (length (last parts []) < 8)%nat /\
  last (removelast parts) [] <> [] /\
  parseCompareTicker ticker = None.
Proof.
  cbv zeta. split; [reflexivity|]. split; [vm_compute; discriminate|].
  split; [vm_compute; lia|]. split; [vm_compute; lia|].
  split; [vm_compute; discriminate|]. reflexivity.
Qed.

(** C8, as the code has it. [parseCompareTicker] returns on every string,
    and returns [null] exactly on these: a ticker that is empty once
    trimmed, one with fewer than three [" / "]-delimited segments, one
    whose last segment (the address) has fewer than 8 code units once
    trimmed, and one whose second-to-last segment (the network) is empty
    once trimmed; on every other string the result is the object of the
    two trimmed segments. In particular a whitespace-only ticker, a last
    segment shorter than 8 and an empty second-to-last segment give
    [null]. *)
Theorem parseCompareTicker_total :
  forall ticker : jsstring,
    let parts := split_slash ticker in
    let addressSegment := last parts [] in
    let networkSegment := last (removelast parts) [] in
    (parseCompareTicker ticker = None <->
       trim ticker = [] \/ (length parts < 3)%nat \/
       (length (trim addressSegment) < 8)%nat \/ trim networkSegment = []) /\
    (parseCompareTicker ticker = None \/
     parseCompareTicker ticker =
       Some (mkTarget (trim addressSegment) (trim networkSegment))) /\
    (forallb isWhiteSpace ticker = true -> parseCompareTicker ticker = None) /\
    ((length addressSegment < 8)%nat -> parseCompareTicker ticker = None) /\
    (networkSegment = [] -> parseCompareTicker ticker = None).
Proof.
  intros ticker parts addressSegment networkSegment.
  assert (Hiff : parseCompareTicker ticker = None <->
       trim ticker = [] \/ (length parts < 3)%nat \/
       (length (trim addressSegment) < 8)%nat \/ trim networkSegment = []).
  { rewrite parseCompareTicker_decision. cbv zeta.
    fold parts. fold addressSegment. fold networkSegment.
    rewrite <- !nonEmpty_false.
    destruct (nonEmpty (trim ticker)); cbn [andb]; [|tauto].
    destruct (Nat.leb_spec 3 (length parts)); cbn [andb]; [|tauto].
    destruct (Nat.leb_spec 8 (length (trim addressSegment))); cbn [andb]; [|tauto].
    destruct (nonEmpty (trim networkSegment)); cbn [andb].
    - split; [discriminate|]. intros [?|[?|[?|?]]]; try discriminate; lia.
    - tauto. }
  split; [exact Hiff|]. split; [|split; [|split]].
  - rewrite parseCompareTicker_decision. cbv zeta.
    fold parts. fold addressSegment. fold networkSegment.
    destruct (_ && _); auto.
  - intros Hws. apply Hiff. left. now apply trim_all_whitespace.
  - intros Hshort. apply Hiff. right. right. left.
    pose proof (trim_length addressSegment). lia.
  - intros Hempty. apply Hiff. right. right. right. now rewrite Hempty.
Qed.

Lemma parseCompareTicker_total_witness :
  parseCompareTicker (lit "   ") = None /\
  parseCompareTicker (lit "BIBI / bsc / 0xABC") = None /\
  parseCompareTicker (lit "BIBI /  / 0xABCDEF12") = None.
Proof.
  split; [|split].
  - apply (proj1 (proj2 (proj2 (parseCompareTicker_total (lit "   "))))).
    reflexivity.
  - apply (proj1 (proj2 (proj2 (proj2
             (parseCompareTicker_total (lit "BIBI / bsc / 0xABC")))))).
    simpl. lia.
  - apply (proj2 (proj2 (proj2 (proj2
             (parseCompareTicker_total (lit "BIBI /  / 0xABCDEF12")))))).
    reflexivity.
Defined.

(** ** getBars *)

Lemma inPeriod_spec (periodParams : PeriodParams) (bar : IOhlcvData) :
  inPeriod periodParams bar = true <->
  from periodParams <= time bar <= to periodParams.
Proof.
  unfold inPeriod. rewrite andb_true_iff, !Z.leb_le. tauto.
Qed.

Lemma serveTimed_contract (aggregated : list IOhlcvData)
    (periodParams : PeriodParams) :
  historyContract aggregated periodParams
    (mkHistory
       (map widgetBar (filter (inPeriod periodParams) aggregated))
       ((length (map widgetBar (filter (inPeriod periodParams) aggregated)) =? 0)%nat &&
        match firstBarTime aggregated with
        | None => true
        | Some t => to periodParams <? t
        end)).
Proof.
  unfold historyContract. cbn [bars noData]. split; [|split].
  - intros bar Hbar.
    apply in_map_iff in Hbar as (agg & <- & Hagg).
    apply filter_In in Hagg as [Hagg Hin]. apply inPeriod_spec in Hin.
    exists agg. unfold widgetBar. cbn [time open high low close volume].
    split; [trivial|]. split; [lia|]. split; [lia|].
    repeat split; reflexivity.
  - intros agg Hagg Hin. apply in_map, filter_In. split; trivial.
    now apply inPeriod_spec.
  - rewrite andb_true_iff, Nat.eqb_eq, length_zero_iff_nil.
    destruct aggregated as [|first later]; simpl firstBarTime.
    + simpl. intuition.
    + rewrite Z.ltb_lt. split.
      * intros [E Hlt]. split; trivial. right. eauto.
      * intros [E [Hnil|(f & l & [= <- <-] & Hlt)]]; [discriminate|]. auto.
Qed.

Lemma serveFromCache_contract (rawBars : list IOhlcvData) (resolution : jsstring)
    (periodParams : PeriodParams) :
  historyContractOf (aggregateBars_any rawBars resolution) periodParams
                    (serveFromCache rawBars resolution periodParams).
Proof.
  unfold serveFromCache.
  destruct (aggregateBars_any rawBars resolution) as [aggregated|bucket];
    unfold historyContractOf.
  - apply serveTimed_contract.
  - cbn [bars noData]. split; [reflexivity|].
    destruct bucket; split; congruence.
Qed.

Lemma serveFromCache_empty (resolution : jsstring) (periodParams : PeriodParams) :
  serveFromCache [] resolution periodParams = mkHistory [] true.
Proof.
  unfold serveFromCache, aggregateBars_any.
  destruct (lookupIntervalSec resolution); reflexivity.
Qed.

Lemma sourceData_empty (resolution : jsstring) : sourceData [] [] [] resolution = [].
Proof.
  unfold sourceData.
  destruct (DAILY_RESOLUTIONS_has resolution), (atLeastHourly resolution);
    reflexivity.
Qed.

Lemma fetchFullOhlcv_reason
    (getDataFeed : jsstring -> jsstring -> Timeframe -> Z -> jsstring + IDatafeed)
    (address network reason : jsstring) :
  fetchFullOhlcv getDataFeed address network = inl reason ->
  getDataFeed address network TfDay 1 = inl reason \/
  getDataFeed address network TfHour 1 = inl reason \/
  getDataFeed address network TfMinute 5 = inl reason.
Proof.
  unfold fetchFullOhlcv.
  destruct (getDataFeed address network TfDay 1) as [e1|dayFeed];
    [intros [= <-]; auto|].
  destruct (getDataFeed address network TfHour 1) as [e2|hourFeed];
    [intros [= <-]; auto|].
  destruct (getDataFeed address network TfMinute 5) as [e3|minuteFeed];
    [intros [= <-]; auto|].
  discriminate.
Qed.

(** C9. Every [getBars] request is answered from one series: the source
    series of the chart's own symbol, the cached bars of a compare ticker,
    or the bars its fetch returned. The answer holds the bars of the
    aggregation of that series: each returned bar is an aggregated bar
    whose time, in seconds, lies in [[from, to]], with its time multiplied
    by 1000; every aggregated bar of that range is returned; and [noData]
    is true exactly when no bar is returned and the aggregated series is
    empty or [to] is before its first bar. Only a failed fetch gives
    [onError], with the reason of one of its requests. For an empty series
    the answer is no bars and [noData = true]. *)
Theorem getBars_contract :
  forall (getDataFeed : jsstring -> jsstring -> Timeframe -> Z -> jsstring + IDatafeed)
         (minuteData hourData dayData : list IOhlcvData) (cache : CompareCache)
         (symbolInfo : SymbolInfo) (resolution : jsstring)
         (periodParams : PeriodParams),
    let outcome :=
      snd (getBars getDataFeed minuteData hourData dayData cache
                   symbolInfo resolution periodParams) in
    let answeredFrom := fun rawBars : list IOhlcvData =>
      exists result,
        outcome = OnResult result /\
        result = serveFromCache rawBars resolution periodParams /\
        historyContractOf (aggregateBars_any rawBars resolution)
                          periodParams result in
    match parseCompareTicker (tickerOf symbolInfo) with
    | None => answeredFrom (sourceData minuteData hourData dayData resolution)
    | Some parsed =>
        match cache_get cache (cacheKeyOf (address parsed) (network parsed)) with
        | Some cached => answeredFrom cached
        | None =>
            match fetchFullOhlcv getDataFeed (address parsed) (network parsed) with
            | inr data => answeredFrom data
            | inl _ =>
                exists reason,
                  outcome = OnError reason /\
                  (getDataFeed (address parsed) (network parsed) TfDay 1 =
                     inl reason \/
                   getDataFeed (address parsed) (network parsed) TfHour 1 =
                     inl reason \/
                   getDataFeed (address parsed) (network parsed) TfMinute 5 =
                     inl reason)
            end
        end
    end /\
    (inheritsMember resolution = false ->
     forall rawBars,
       aggregateBars_any rawBars resolution =
       Timed (aggregateBars rawBars resolution)) /\
    serveFromCache [] resolution periodParams = mkHistory [] true /\
    match parseCompareTicker (tickerOf symbolInfo) with
    | None =>
        getBars getDataFeed [] [] [] cache symbolInfo resolution periodParams =
        (cache, OnResult (mkHistory [] true))
    | Some _ => True
    end.
Proof.
  intros getDataFeed minuteData hourData dayData cache symbolInfo resolution
         periodParams outcome answeredFrom.
  assert (Hanswer : forall rawBars,
             outcome = OnResult (serveFromCache rawBars resolution periodParams) ->
             answeredFrom rawBars).
  { intros rawBars E. exists (serveFromCache rawBars resolution periodParams).
    split; [exact E|]. split; [reflexivity|]. apply serveFromCache_contract. }
  split; [|split; [|split]].
  - unfold outcome, getBars, cacheKeyOf in *.
    destruct (parseCompareTicker (tickerOf symbolInfo)) as [parsed|];
      cbv zeta in *.
    + destruct (cache_get cache _) as [cached|].
      * now apply Hanswer.
      * destruct (fetchFullOhlcv getDataFeed _ _) as [err|fetched] eqn:Hfetch.
        -- exists err. split; [reflexivity|].
           now apply fetchFullOhlcv_reason.
        -- now apply Hanswer.
    + now apply Hanswer.
  - intros Hown rawBars. now apply aggregateBars_any_own.
  - apply serveFromCache_empty.
  - unfold getBars.
    destruct (parseCompareTicker (tickerOf symbolInfo)); trivial.
    now rewrite sourceData_empty, serveFromCache_empty.
Qed.

(** C10. For a resolution that is not a daily code and parses to at least
    60 minutes, with hour and day data both present, the source series of
    [getBars] for a non-compare symbol is the day bars strictly before the
    first hour bar followed by all hour bars; no day bar at or after the
    first hour timestamp is in it, and when both inputs are strictly
    ascending the stitched series is strictly ascending too. *)
Theorem sourceData_hourly_stitch :
  forall (minuteData laterHours laterDays : list IOhlcvData)
         (firstHour firstDay : IOhlcvData) (resolution : jsstring),
    DAILY_RESOLUTIONS_has resolution = false ->
    atLeastHourly resolution = true ->
    let hourData := firstHour :: laterHours in
    let dayData := firstDay :: laterDays in
    let historical := filter (fun b => time b <? time firstHour) dayData in
    sourceData minuteData hourData dayData resolution = historical ++ hourData /\
    (forall b, In b historical -> In b dayData /\ time b < time firstHour) /\
    (forall b, In b dayData -> time firstHour <= time b ->
               ~ In b historical) /\
    (ascending hourData -> ascending dayData ->
     ascending (sourceData minuteData hourData dayData resolution)) /\
    (forall getDataFeed cache symbolInfo periodParams,
        parseCompareTicker (tickerOf symbolInfo) = None ->
        getBars getDataFeed minuteData hourData dayData cache symbolInfo
                resolution periodParams =
        (cache, OnResult (serveFromCache (historical ++ hourData) resolution
                                    periodParams))).
Proof.
  intros minuteData laterHours laterDays firstHour firstDay resolution
         Hdaily Hhourly hourData dayData historical.
  assert (Esrc : sourceData minuteData hourData dayData resolution =
                 historical ++ hourData).
  { unfold sourceData. now rewrite Hdaily, Hhourly. }
  assert (Hhist : forall b, In b historical ->
                            In b dayData /\ time b < time firstHour).
  { intros b Hb. apply filter_In in Hb as [Hb Hlt].
    apply Z.ltb_lt in Hlt. auto. }
  split; [exact Esrc|]. split; [exact Hhist|]. split; [|split].
  - intros b Hb Hle Hin. apply Hhist in Hin. lia.
  - intros Hh Hd. rewrite Esrc. apply ascending_app; trivial.
    + now apply ascending_filter.
    + intros a b Ha Hb. apply Hhist in Ha as [_ Ha].
      destruct Hb as [<-|Hb]; trivial.
      unfold ascending in Hh. simpl in Hh.
      apply StronglySorted_inv in Hh as [_ Hh].
      rewrite Forall_forall in Hh.
      specialize (Hh (time b) (in_map time _ _ Hb)). lia.
  - intros getDataFeed cache symbolInfo periodParams Hparse.
    unfold getBars. now rewrite Hparse, Esrc.
Qed.

Lemma sourceData_hourly_stitch_witness :
  let day t := mkBar t 1 2 0.5 1.5 100 in
  let hour t := mkBar t 1 1.25 0.75 1 10 in
  let dayData := [day 0; day 86400; day 172800; day 259200] in
  let hourData := [hour 172800; hour 176400; hour 180000] in
  sourceData [] hourData dayData (lit "240") =
    [day 0; day 86400; hour 172800; hour 176400; hour 180000] /\
  ascending (sourceData [] hourData dayData (lit "240")).
Proof.
  cbv zeta.
  pose proof (sourceData_hourly_stitch []
                [mkBar 176400 1 1.25 0.75 1 10; mkBar 180000 1 1.25 0.75 1 10]
                [mkBar 86400 1 2 0.5 1.5 100; mkBar 172800 1 2 0.5 1.5 100;
                 mkBar 259200 1 2 0.5 1.5 100]
                (mkBar 172800 1 1.25 0.75 1 10) (mkBar 0 1 2 0.5 1.5 100)
                (lit "240") eq_refl eq_refl) as (Esrc & _ & _ & Hasc & _).
  split.
  - exact Esrc.
  - apply Hasc; unfold ascending; simpl; repeat constructor.
Defined.

(* ================================================================= *)
(** * Further properties of the code *)

(** ** aggregateBars: what every output satisfies *)

Lemma aggregateBars_ascending (rawBars : list IOhlcvData) (resolution : jsstring) :
  ascending (aggregateBars rawBars resolution).
Proof.
  unfold aggregateBars.
  pose proof (aggregate_state rawBars (intervalSecOf resolution)) as Hinv.
  apply sortByTime_strict.
  rewrite (buckets_values_time _ _ _ Hinv). apply (inv_nodup _ _ _ Hinv).
Qed.

Lemma aggregateBars_times (rawBars : list IOhlcvData) (resolution : jsstring)
    (k : Z) :
  In k (map time (aggregateBars rawBars resolution)) <->
  exists bar, In bar rawBars /\ bucketTimeOf (intervalSecOf resolution) bar = k.
Proof.
  unfold aggregateBars.
  pose proof (aggregate_state rawBars (intervalSecOf resolution)) as Hinv.
  change (bucketTimeOf (intervalSecOf resolution))
    with (spec_bucketTime (intervalSecOf resolution)).
  rewrite <- (buckets_keys_spec _ _ _ Hinv k),
          <- (buckets_values_time _ _ _ Hinv).
  split; apply Permutation_in, Permutation_map.
  - apply sortByTime_perm.
  - apply Permutation_sym, sortByTime_perm.
Qed.

Lemma bucketTimeOf_bounds (n : Z) (bar : IOhlcvData) :
  0 < n ->
  bucketTimeOf n bar mod n = 0 /\
  bucketTimeOf n bar <= time bar < bucketTimeOf n bar + n.
Proof.
  intros Hn. unfold bucketTimeOf. split.
  - apply Z.mod_mul. lia.
  - pose proof (Z.div_mod (time bar) n ltac:(lia)).
    pose proof (Z.mod_pos_bound (time bar) n Hn). lia.
Qed.


(** X1. For a resolution whose looked-up interval is a number, every
    bar [aggregateBars] returns sits on a bucket boundary (its time is a
    multiple of the interval) and stands for at least one input bar whose
    time lies in the bucket [[time, time + interval)]; every input bar lies
    in the bucket of some returned bar; the output has at most as many bars
    as the input, and is empty exactly when the input is. For the name of
    an inherited member the interval is not a number and the result is the
    one bar of the bucket [NaN], present exactly when the input is not
    empty. *)
Theorem aggregateBars_buckets :
  forall (rawBars : list IOhlcvData) (resolution : jsstring),
    match aggregateBars_any rawBars resolution with
    | Timed out =>
        exists n,
          lookupIntervalSec resolution = Some n /\ 0 < n /\
          (forall v, In v out ->
             time v mod n = 0 /\
             exists bar, In bar rawBars /\ time v <= time bar < time v + n) /\
          (forall bar, In bar rawBars ->
             exists v, In v out /\ time v <= time bar < time v + n) /\
          (length out <= length rawBars)%nat /\
          (out = [] <-> rawBars = [])
    | Untimed bucket =>
        lookupIntervalSec resolution = None /\
        (bucket = None <-> rawBars = [])
    end.
Proof.
  intros rawBars resolution. unfold aggregateBars_any.
  destruct (lookupIntervalSec resolution) as [n0|] eqn:Elook;
    [|split; [reflexivity|apply aggregateNaN_none]].
  apply lookupIntervalSec_numeric in Elook. subst n0.
  set (n := intervalSecOf resolution).
  set (out := aggregateBars rawBars resolution).
  pose proof (intervalSecOf_pos resolution) as Hn. fold n in Hn.
  exists n. split; [reflexivity|]. split; [exact Hn|].
  assert (Hout : forall v, In v out ->
             time v mod n = 0 /\
             exists bar, In bar rawBars /\ time v <= time bar < time v + n).
  { intros v Hv.
    destruct (proj1 (aggregateBars_times rawBars resolution (time v))
                (in_map time _ _ Hv)) as (bar & Hbar & E).
    fold n in E. destruct (bucketTimeOf_bounds n bar Hn) as [Hmod Hb].
    rewrite E in Hmod, Hb. eauto. }
  assert (Hin : forall bar, In bar rawBars ->
             exists v, In v out /\ time v <= time bar < time v + n).
  { intros bar Hbar.
    assert (Hk : In (bucketTimeOf n bar) (map time out)).
    { apply aggregateBars_times. eauto. }
    apply in_map_iff in Hk as (v & E & Hv).
    exists v. split; trivial. rewrite E.
    apply (bucketTimeOf_bounds n bar Hn). }
  split; [exact Hout|]. split; [exact Hin|]. split.
  - rewrite <- (length_map time out), <- (length_map (bucketTimeOf n) rawBars).
    apply NoDup_incl_length.
    + apply ascending_NoDup, aggregateBars_ascending.
    + intros k Hk. apply aggregateBars_times in Hk as (bar & Hbar & <-).
      now apply in_map.
  - split.
    + intros E. destruct rawBars as [|bar rest]; trivial.
      destruct (Hin bar (or_introl eq_refl)) as (v & Hv & _).
      rewrite E in Hv. contradiction.
    + intros ->. reflexivity.
Qed.





(** ** getOhlcvFromFeed *)

Lemma insertByTime_same_time (t : Z) (x : IOhlcvData) (l : list IOhlcvData) :
  StronglySorted Z.le (map time l) ->
  filter (fun b => time b =? t) (insertByTime x l) =
  filter (fun b => time b =? t) (x :: l).
Proof.
  induction l as [|y l IH]; intros Hs; trivial.
  apply StronglySorted_inv in Hs as [Hs Hy]. simpl insertByTime.
  destruct (Z.leb_spec (time x) (time y)); trivial.
  change (filter (fun b => time b =? t) (y :: insertByTime x l))
    with (if time y =? t then y :: filter (fun b => time b =? t) (insertByTime x l)
          else filter (fun b => time b =? t) (insertByTime x l)).
  rewrite IH by trivial. simpl.
  destruct (Z.eqb_spec (time y) t), (Z.eqb_spec (time x) t); trivial; lia.
Qed.

Lemma sortByTime_same_time (t : Z) (l : list IOhlcvData) :
  filter (fun b => time b =? t) (sortByTime l) =
  filter (fun b => time b =? t) l.
Proof.
  induction l as [|x l IH]; trivial. simpl sortByTime.
  rewrite insertByTime_same_time by apply sortByTime_sorted.
  simpl. now rewrite IH.
Qed.

(** X4. [getOhlcvFromFeed] never fails and never drops a bar: a payload
    without [data] gives the empty series; otherwise the result holds
    exactly the bars of [ohlcv_list] (duplicates of a timestamp included),
    in non-decreasing order of time, bars of equal time in payload
    order. *)
Theorem getOhlcvFromFeed_sorted :
  forall feed : IDatafeed,
    let series := getOhlcvFromFeed feed in
    StronglySorted Z.le (map time series) /\
    match data feed with
    | None => series = []
    | Some ohlcv_list =>
        Permutation series (map barOfTuple ohlcv_list) /\
        length series = length ohlcv_list /\
        forall t, filter (fun b => time b =? t) series =
                  filter (fun b => time b =? t) (map barOfTuple ohlcv_list)
    end.
Proof.
  intros feed. unfold getOhlcvFromFeed.
  destruct (data feed) as [ohlcv_list|]; cbv zeta.
  - split; [apply sortByTime_sorted|]. split; [apply sortByTime_perm|]. split.
    + rewrite (Permutation_length (sortByTime_perm _)). apply length_map.
    + intros t. apply sortByTime_same_time.
  - split; [constructor|reflexivity].
Qed.

(** ** mergeOhlcv on arbitrary inputs *)

(** One turn of the loop, whatever the inputs: one bar [w] is pushed, each
    cursor stays or moves past a bar of the time of [w], and the day cursor
    moves only past [w] itself. *)
Lemma mergeLoop_turn (fuel : nat) (ms hs ds merged : list IOhlcvData) :
  ms <> [] \/ hs <> [] \/ ds <> [] ->
  exists w ms' hs' ds',
    mergeLoop (S fuel) ms hs ds merged =
      mergeLoop fuel ms' hs' ds' (merged ++ [w]) /\
    (ms' = ms \/ exists m, ms = m :: ms' /\ time m = time w) /\
    (hs' = hs \/ exists h, hs = h :: hs' /\ time h = time w) /\
    (ds' = ds \/ ds = w :: ds') /\
    (In w ms \/ In w hs \/ In w ds) /\
    (forall t, headTime ms = Finite t \/ headTime hs = Finite t \/
               headTime ds = Finite t -> time w <= t) /\
    (length ms' + length hs' + length ds' <
     length ms + length hs + length ds)%nat.
Proof.
  intros Hne.
  destruct ms as [|m ms], hs as [|h hs], ds as [|d ds];
    [ destruct Hne as [Hne|[Hne|Hne]]; congruence | .. ];
    cbn [mergeLoop headTime head_min head_eqb tl push_head andb];
    repeat match goal with
           | |- context [if ?c then _ else _] =>
               let E := fresh "E" in destruct c eqn:E
           end;
    bool_to_prop;
    try (exfalso; lia);
    do 4 eexists;
    (split; [reflexivity|]);
    (split; [first [left; reflexivity | right; eexists; split; [reflexivity|lia]]|]);
    (split; [first [left; reflexivity | right; eexists; split; [reflexivity|lia]]|]);
    (split; [first [left; reflexivity | right; reflexivity]|]);
    (split; [simpl; auto|]);
    (split; [|simpl; lia]);
    intros t [Et|[Et|Et]]; simpl in Et; try discriminate Et;
    injection Et as <-; lia.
Qed.

Lemma mergeLoop_covers (fuel : nat) :
  forall ms hs ds merged out,
    mergeLoop fuel ms hs ds merged = Some out ->
    (forall b, In b out -> In b merged \/ In b ms \/ In b hs \/ In b ds) /\
    incl merged out /\
    incl ds out /\
    (forall x, In x ms \/ In x hs \/ In x ds ->
               exists b, In b out /\ time b = time x) /\
    (length merged + length ds <= length out <=
     length merged + (length ms + length hs + length ds))%nat.
Proof.
  induction fuel as [|fuel IH]; intros ms hs ds merged out Hrun.
  - destruct ms, hs, ds; simpl in Hrun; try discriminate.
    injection Hrun as <-. split; [auto|]. split; [intros ? Hb; exact Hb|].
    split; [intros ? []|]. split; [intros ? [[]|[[]|[]]]|simpl; lia].
  - destruct (list_eq_dec_nil ms hs ds) as [(-> & -> & ->)|Hne].
    + simpl in Hrun. injection Hrun as <-.
      split; [auto|]. split; [intros ? Hb; exact Hb|].
      split; [intros ? []|]. split; [intros ? [[]|[[]|[]]]|simpl; lia].
    + destruct (mergeLoop_turn fuel ms hs ds merged Hne)
        as (w & ms' & hs' & ds' & Estep & Hm & Hh & Hd & Hw & _ & Hlen).
      rewrite Estep in Hrun.
      apply IH in Hrun as (Hfrom & Hmerged & Hds & Hseen & Hbound).
      assert (Hwout : In w out).
      { apply Hmerged, in_app_iff. right. now left. }
      rewrite length_app in Hbound. cbn [length] in Hbound.
      split; [|split; [|split; [|split]]].
      * intros b Hb. destruct (Hfrom b Hb) as [Hb'|[Hb'|[Hb'|Hb']]].
        -- apply in_app_iff in Hb' as [Hb'|[<-|[]]]; auto.
        -- destruct Hm as [->|(m & -> & _)]; simpl; auto.
        -- destruct Hh as [->|(h & -> & _)]; simpl; auto 6.
        -- destruct Hd as [-> | ->]; simpl; auto 6.
      * intros b Hb. apply Hmerged, in_app_iff. now left.
      * intros b Hb. destruct Hd as [-> | ->]; [now apply Hds|].
        destruct Hb as [<-|Hb]; [exact Hwout|now apply Hds].
      * intros x [Hx|[Hx|Hx]].
        -- destruct Hm as [->|(m & -> & Em)]; [apply Hseen; auto|].
           destruct Hx as [<-|Hx]; [eauto|apply Hseen; auto].
        -- destruct Hh as [->|(h & -> & Eh)]; [apply Hseen; auto|].
           destruct Hx as [<-|Hx]; [eauto|apply Hseen; auto].
        -- destruct Hd as [-> | ->]; [apply Hseen; auto|].
           destruct Hx as [<-|Hx]; [eauto|apply Hseen; auto].
      * destruct Hd as [-> | ->]; simpl in *; lia.
Qed.

(** X5. Whatever the three series hold (any order, any duplicates),
    [mergeOhlcv] only emits input bars, emits every day bar, emits a bar at
    every timestamp that occurs in an input, and returns at least as many
    bars as the day series and at most as many as the three series
    together. *)
Theorem mergeOhlcv_covers :
  forall minuteData hourData dayData : list IOhlcvData,
    let out := mergeOhlcv minuteData hourData dayData in
    (forall b, In b out -> In b minuteData \/ In b hourData \/ In b dayData) /\
    incl dayData out /\
    (forall x, In x minuteData \/ In x hourData \/ In x dayData ->
               exists b, In b out /\ time b = time x) /\
    (length dayData <= length out <=
     length minuteData + length hourData + length dayData)%nat.
Proof.
  intros M H D out.
  destruct (mergeLoop_covers _ M H D [] out (mergeLoop_terminates M H D))
    as (Hfrom & _ & Hds & Hseen & Hlen).
  split; [|split; [|split]]; trivial.
  intros b Hb. destruct (Hfrom b Hb) as [[]|Hb']. exact Hb'.
Qed.

Lemma sorted_le_snoc (l : list IOhlcvData) (w : IOhlcvData) :
  StronglySorted Z.le (map time l) ->
  (forall b, In b l -> time b <= time w) ->
  StronglySorted Z.le (map time (l ++ [w])).
Proof.
  induction l as [|x l IH]; intros Hs Hle; simpl.
  - repeat constructor.
  - apply StronglySorted_inv in Hs as [Hs Hx]. constructor.
    + apply IH; trivial. intros b Hb. apply Hle. now right.
    + rewrite map_app, Forall_app. split; trivial.
      repeat constructor. apply Hle. now left.
Qed.

Lemma sorted_le_head (l : list IOhlcvData) (c : IOhlcvData) :
  StronglySorted Z.le (map time l) -> In c l ->
  exists t, headTime l = Finite t /\ t <= time c.
Proof.
  destruct l as [|x l]; intros Hs Hc; [destruct Hc|].
  destruct Hc as [<-|Hc]; simpl.
  - eexists. split; [reflexivity|lia].
  - apply StronglySorted_inv in Hs as [_ Hx].
    eexists. split; [reflexivity|].
    rewrite Forall_forall in Hx. apply Hx. now apply in_map.
Qed.

Lemma sorted_le_rest (l l' : list IOhlcvData) (w : IOhlcvData) :
  StronglySorted Z.le (map time l) ->
  l' = l \/ (exists x, l = x :: l' /\ time x = time w) ->
  StronglySorted Z.le (map time l') /\ incl l' l.
Proof.
  intros Hs [->|(x & -> & _)].
  - split; [trivial|apply incl_refl].
  - apply StronglySorted_inv in Hs as [Hs _]. split; [trivial|].
    intros b Hb. now right.
Qed.

Lemma mergeLoop_sorted (fuel : nat) :
  forall ms hs ds merged out,
    StronglySorted Z.le (map time ms) ->
    StronglySorted Z.le (map time hs) ->
    StronglySorted Z.le (map time ds) ->
    StronglySorted Z.le (map time merged) ->
    (forall b c, In b merged -> In c ms \/ In c hs \/ In c ds ->
                 time b <= time c) ->
    mergeLoop fuel ms hs ds merged = Some out ->
    StronglySorted Z.le (map time out).
Proof.
  induction fuel as [|fuel IH]; intros ms hs ds merged out Hm Hh Hd Hs Hle Hrun.
  - destruct ms, hs, ds; simpl in Hrun; try discriminate.
    now injection Hrun as <-.
  - destruct (list_eq_dec_nil ms hs ds) as [(-> & -> & ->)|Hne].
    + simpl in Hrun. now injection Hrun as <-.
    + destruct (mergeLoop_turn fuel ms hs ds merged Hne)
        as (w & ms' & hs' & ds' & Estep & Hm' & Hh' & Hd' & Hw & Hmin & _).
      rewrite Estep in Hrun.
      destruct (sorted_le_rest ms ms' w Hm Hm') as [Hsm Him].
      destruct (sorted_le_rest hs hs' w Hh Hh') as [Hsh Hih].
      assert (Hd'' : ds' = ds \/ exists x, ds = x :: ds' /\ time x = time w).
      { destruct Hd' as [->| ->]; eauto. }
      destruct (sorted_le_rest ds ds' w Hd Hd'') as [Hsd Hid].
      apply (IH ms' hs' ds' (merged ++ [w]) out); trivial.
      * apply sorted_le_snoc; trivial. intros b Hb. now apply Hle.
      * intros b c Hb Hc.
        assert (Hc' : In c ms \/ In c hs \/ In c ds).
        { destruct Hc as [Hc|[Hc|Hc]]; auto. }
        apply in_app_iff in Hb as [Hb|[<-|[]]]; [now apply Hle|].
        destruct Hc' as [Hc'|[Hc'|Hc']].
        -- destruct (sorted_le_head ms c Hm Hc') as (t & Et & Ht).
           assert (time w <= t) by (apply Hmin; auto). lia.
        -- destruct (sorted_le_head hs c Hh Hc') as (t & Et & Ht).
           assert (time w <= t) by (apply Hmin; auto). lia.
        -- destruct (sorted_le_head ds c Hd Hc') as (t & Et & Ht).
           assert (time w <= t) by (apply Hmin; auto). lia.
Qed.

(** X6. [mergeOhlcv] keeps time order: if in each of the three series the
    times never decrease, they never decrease in the merged series. (When
    a day and a minute bar share a time that the hour series lacks, both
    are emitted, so the order need not be strict.) *)
Theorem mergeOhlcv_nondecreasing :
  forall minuteData hourData dayData : list IOhlcvData,
    StronglySorted Z.le (map time minuteData) ->
    StronglySorted Z.le (map time hourData) ->
    StronglySorted Z.le (map time dayData) ->
    StronglySorted Z.le (map time (mergeOhlcv minuteData hourData dayData)).
Proof.
  intros M H D HM HH HD.
  apply (mergeLoop_sorted (mergeFuel M H D) M H D [] _ HM HH HD).
  - constructor.
  - intros b c [].
  - apply mergeLoop_terminates.
Qed.

Lemma mergeOhlcv_nondecreasing_witness :
  StronglySorted Z.le
    (map time (mergeOhlcv [mkBar 0 1 1 1 1 1; mkBar 60 1 1 1 1 1]
                          [mkBar 3600 2 2 2 2 2]
                          [mkBar 0 3 3 3 3 3; mkBar 86400 3 3 3 3 3])).
Proof.
  apply mergeOhlcv_nondecreasing; simpl; repeat constructor; lia.
Defined.

Lemma mergeLoop_single (fuel : nat) :
  forall series merged,
    (length series <= fuel)%nat ->
    mergeLoop fuel series [] [] merged = Some (merged ++ series) /\
    mergeLoop fuel [] series [] merged = Some (merged ++ series) /\
    mergeLoop fuel [] [] series merged = Some (merged ++ series).
Proof.
  induction fuel as [|fuel IH]; intros series merged Hlen.
  - destruct series; simpl in Hlen; [|lia]. simpl. now rewrite app_nil_r.
  - destruct series as [|bar rest].
    + simpl. now rewrite app_nil_r.
    + simpl in Hlen.
      destruct (IH rest (merged ++ [bar]) ltac:(lia)) as (E1 & E2 & E3).
      rewrite <- app_assoc in E1, E2, E3.
      cbn [mergeLoop headTime head_min head_eqb tl push_head].
      rewrite Z.eqb_refl. cbn [andb]. auto.
Qed.

(** X7. With two of the three series empty [mergeOhlcv] returns the
    remaining one as it is, whatever its order and duplicates. *)
Theorem mergeOhlcv_single_series :
  forall series : list IOhlcvData,
    mergeOhlcv series [] [] = series /\
    mergeOhlcv [] series [] = series /\
    mergeOhlcv [] [] series = series.
Proof.
  intros series. unfold mergeOhlcv, mergeFuel.
  rewrite !Nat.add_0_r. cbn [length Nat.add].
  destruct (mergeLoop_single (length series) series [] (Nat.le_refl _))
    as (-> & -> & ->).
  auto.
Qed.

Lemma mergeOhlcv_priority_merge_witness :
  let M := [mkBar 0 1 1 1 1 1; mkBar 60 1 1 1 1 1] in
  let H := [mkBar 0 2 2 2 2 2; mkBar 3600 2 2 2 2 2] in
  let D := [mkBar 0 3 3 3 3 3; mkBar 86400 3 3 3 3 3] in
  ascending (mergeOhlcv M H D) /\
  (forall b, In b (mergeOhlcv M H D) ->
     In b D \/
     (In b H /\ forall x, In x D -> time x <> time b) \/
     (In b M /\ (forall x, In x D -> time x <> time b) /\
                (forall x, In x H -> time x <> time b))) /\
  (forall x, In x M \/ In x H \/ In x D ->
             exists b, In b (mergeOhlcv M H D) /\ time b = time x).
Proof.
  intros M H D.
  apply (mergeOhlcv_priority_merge M H D).
  - unfold ascending. simpl. repeat constructor; lia.
  - unfold ascending. simpl. repeat constructor; lia.
  - unfold ascending. simpl. repeat constructor; lia.
  - intros x y Hx Hy E. exists (mkBar 0 2 2 2 2 2).
    simpl in Hx, Hy.
    destruct Hx as [<-|[<-|[]]], Hy as [<-|[<-|[]]]; simpl in E; try lia;
      split; [now left|reflexivity].
Defined.

(** ** formatCryptoPrice: sign handling *)

Lemma abs_abs (x : float) : abs (abs x) = abs x.
Proof.
  apply Prim2SF_inj. rewrite !abs_spec. now destruct (Prim2SF x).
Qed.

Lemma SFeqb_abs_refl (sf : spec_float) :
  SFeqb (SFabs sf) (SFabs sf) = SFeqb sf sf.
Proof.
  destruct sf as [s|s| |s m e]; try reflexivity; [now destruct s|].
  change (SFabs (S754_finite s m e)) with (S754_finite false m e).
  now rewrite (SFeqb_refl_finite false), (SFeqb_refl_finite s).
Qed.

Lemma isNaN_abs (x : float) : isNaN (abs x) = isNaN x.
Proof.
  unfold isNaN, is_nan. rewrite !eqb_spec, abs_spec.
  now rewrite SFeqb_abs_refl.
Qed.

Lemma isFinite_abs (x : float) : isFinite (abs x) = isFinite x.
Proof.
  unfold isFinite. fold (isNaN (abs x)). fold (isNaN x).
  rewrite isNaN_abs. unfold is_infinity. now rewrite abs_abs.
Qed.

Lemma abs_not_negative (x : float) : (abs x <? 0)%float = false.
Proof.
  rewrite ltb_spec, abs_spec.
  change (Prim2SF 0) with (S754_zero false).
  now destruct (Prim2SF x) as [s|s| |s m e].
Qed.

Lemma negative_not_positive (x : float) :
  (x <? 0)%float = true -> (0 <? x)%float = false /\ (abs x =? 0)%float = false.
Proof.
  rewrite !ltb_spec, eqb_spec, abs_spec.
  change (Prim2SF 0) with (S754_zero false).
  destruct (Prim2SF x) as [s|s| |s m e]; try discriminate;
    destruct s; try discriminate; auto.
Qed.

(** X8. The sign flag only adds a leading plus sign: with
    [signPositive = true] the result is the result without the flag, with
    ["+"] before it exactly when the price is finite and greater than
    zero; with [signPositive = false] it is the result without the flag. *)
Theorem formatCryptoPrice_sign_flag :
  forall (Number_toString : float -> jsstring) (price : float),
    formatCryptoPrice Number_toString price (Some true) =
      (if isFinite price && (0 <? price)%float
       then lit "+" ++ formatCryptoPrice Number_toString price None
       else formatCryptoPrice Number_toString price None) /\
    formatCryptoPrice Number_toString price (Some false) =
      formatCryptoPrice Number_toString price None.
Proof.
  intros N price. split; [|reflexivity].
  unfold formatCryptoPrice.
  destruct (isFinite price) eqn:Hfin; [|reflexivity].
  assert (Hnan : isNaN price = false).
  { unfold isFinite in Hfin. fold (isNaN price) in Hfin.
    now destruct (isNaN price). }
  rewrite Hnan. cbn [negb orb andb truthy]. cbv zeta.
  destruct (0 <? price)%float; [|reflexivity].
  repeat match goal with
         | |- context [if ?c then _ else _] => destruct c
         end; reflexivity.
Qed.

(** X9. A negative price is formatted as its absolute value with a minus
    sign before it, whatever the sign flag: for finite [price < 0],
    [formatCryptoPrice price flag] is ["-"] followed by
    [formatCryptoPrice (abs price)] . *)
Theorem formatCryptoPrice_negative :
  forall (Number_toString : float -> jsstring) (price : float)
         (signPositive : option bool),
    isFinite price = true ->
    (price <? 0)%float = true ->
    formatCryptoPrice Number_toString price signPositive =
    lit "-" ++ formatCryptoPrice Number_toString (abs price) None.
Proof.
  intros N price flag Hfin Hneg.
  destruct (negative_not_positive price Hneg) as [Hpos Hnz].
  assert (Hnan : isNaN price = false).
  { unfold isFinite in Hfin. fold (isNaN price) in Hfin.
    now destruct (isNaN price). }
  unfold formatCryptoPrice.
  rewrite isFinite_abs, isNaN_abs, abs_abs, abs_not_negative.
  rewrite Hfin, Hnan, Hneg, Hpos, Hnz, andb_false_r.
  cbn [negb orb andb truthy]. cbv zeta.
  repeat match goal with
         | |- context [if ?c then _ else _] => destruct c
         end; reflexivity.
Qed.

Lemma formatCryptoPrice_negative_witness :
  formatCryptoPrice (fun _ => []) (-0.05)%float (Some true) =
  lit "-" ++ formatCryptoPrice (fun _ => []) (abs (-0.05)%float) None.
Proof.
  apply formatCryptoPrice_negative; reflexivity.
Defined.

Lemma sub_self (x : float) : (x - x)%float = 0%float \/ (x - x)%float = nan.
Proof.
  destruct (Prim2SF x) as [s|s| |s m e] eqn:E.
  - left. apply Prim2SF_inj. rewrite sub_spec, E.
    change (Prim2SF 0) with (S754_zero false). now destruct s.
  - right. apply Prim2SF_inj. rewrite sub_spec, E.
    change (Prim2SF nan) with S754_nan. now destruct s.
  - right. apply Prim2SF_inj. rewrite sub_spec, E. reflexivity.
  - left. apply Prim2SF_inj. rewrite sub_spec, E.
    change (Prim2SF 0) with (S754_zero false).
    unfold SF64sub, SFsub. rewrite Z.sub_diag. reflexivity.
Qed.

(** X10. [formatChange] of a price against itself is ["0"], with no
    sign, for every number: a finite price gives the difference [+0], an
    infinite or [NaN] price gives [NaN], and both are formatted as
    ["0"]. *)
Theorem formatChange_same_price :
  forall (Number_toString : float -> jsstring) (price : float)
         (signPositive : option bool),
    formatChange Number_toString price price signPositive = lit "0".
Proof.
  intros N price flag. unfold formatChange.
  destruct (sub_self price) as [-> | ->].
  - now destruct flag as [[|]|].
  - apply formatCryptoPrice_not_finite. now right.
Qed.

(** ** toSubscript *)












(** ** The ticker codec: what a parsed target looks like *)

Lemma trimStart_fixed (c : N) (s : jsstring) :
  isWhiteSpace c = false -> trimStart (c :: s) = c :: s.
Proof. intros H. simpl. now rewrite H. Qed.

Lemma trimStart_idempotent (s : jsstring) : trimStart (trimStart s) = trimStart s.
Proof.
  induction s as [|c s IH]; trivial. simpl.
  destruct (isWhiteSpace c) eqn:E; trivial. now apply trimStart_fixed.
Qed.

Lemma trimStart_snoc (s : jsstring) (c : N) :
  isWhiteSpace c = false -> trimStart (s ++ [c]) = trimStart s ++ [c].
Proof.
  intros H. induction s as [|x s IH]; simpl.
  - now rewrite H.
  - now destruct (isWhiteSpace x).
Qed.

Lemma trimStart_head (s : jsstring) :
  trimStart s = [] \/
  exists c rest, trimStart s = c :: rest /\ isWhiteSpace c = false.
Proof.
  induction s as [|c s IH]; simpl; auto.
  destruct (isWhiteSpace c) eqn:E; eauto.
Qed.

Lemma trimStart_trimEnd (c : N) (s : jsstring) :
  isWhiteSpace c = false ->
  exists rest, trimEnd (c :: s) = c :: rest.
Proof.
  intros H. unfold trimEnd. simpl rev.
  rewrite trimStart_snoc by trivial. rewrite rev_app_distr. simpl. eauto.
Qed.

Lemma trim_idempotent (s : jsstring) : trim (trim s) = trim s.
Proof.
  unfold trim.
  assert (E : trimStart (trimEnd (trimStart s)) = trimEnd (trimStart s)).
  { destruct (trimStart_head s) as [-> | (c & rest & -> & Hc)]; trivial.
    destruct (trimStart_trimEnd c rest Hc) as [rest' ->].
    now apply trimStart_fixed. }
  rewrite E. unfold trimEnd. now rewrite rev_involutive, trimStart_idempotent.
Qed.

Lemma parseCompareTicker_normal_form_aux (ticker : jsstring)
    (target : CompareTarget) :
  parseCompareTicker ticker = Some target ->
  address target = trim (last (split_slash ticker) []) /\
  (3 <= length (split_slash ticker))%nat.
Proof.
  rewrite parseCompareTicker_decision. cbv zeta.
  destruct (nonEmpty (trim ticker)); [|discriminate].
  destruct (Nat.leb_spec 3 (length (split_slash ticker))); [|discriminate].
  destruct (8 <=? length (trim (last (split_slash ticker) [])))%nat;
    [|discriminate].
  destruct (nonEmpty (trim (last (removelast (split_slash ticker)) [])));
    [|discriminate].
  cbn [andb]. intros [= <-]. auto.
Qed.

(** X12. A target that [parseCompareTicker] returns is in normal form:
    address and network are the last and second-to-last segments of the
    ticker with surrounding whitespace removed, so trimming them again
    changes nothing; the address has at least 8 code units, the network is
    not empty and the ticker has at least three segments. *)
Theorem parseCompareTicker_normal_form :
  forall (ticker : jsstring) (target : CompareTarget),
    parseCompareTicker ticker = Some target ->
    address target = trim (last (split_slash ticker) []) /\
    network target = trim (last (removelast (split_slash ticker)) []) /\
    trim (address target) = address target /\
    trim (network target) = network target /\
    (8 <= length (address target))%nat /\
    network target <> [] /\
    (3 <= length (split_slash ticker))%nat.
Proof.
  intros ticker target. rewrite parseCompareTicker_decision. cbv zeta.
  destruct (nonEmpty (trim ticker)); [|discriminate].
  destruct (Nat.leb_spec 3 (length (split_slash ticker))); [|discriminate].
  destruct (Nat.leb_spec 8 (length (trim (last (split_slash ticker) []))));
    [|discriminate].
  destruct (nonEmpty (trim (last (removelast (split_slash ticker)) []))) eqn:Hn;
    [|discriminate].
  cbn [andb]. intros [= <-]. cbn [address network].
  rewrite !trim_idempotent.
  split; [reflexivity|]. split; [reflexivity|]. split; [reflexivity|].
  split; [reflexivity|]. split; [assumption|]. split; [|assumption].
  intros E. rewrite E in Hn. discriminate.
Qed.

Lemma parseCompareTicker_normal_form_witness :
  let ticker := lit "BIBI / eth /  0xABCDEF12 " in
  let target := mkTarget (lit "0xABCDEF12") (lit "eth") in
  address target = trim (last (split_slash ticker) []) /\
  network target = trim (last (removelast (split_slash ticker)) []) /\
  trim (address target) = address target /\
  trim (network target) = network target /\
  (8 <= length (address target))%nat /\
  network target <> [] /\
  (3 <= length (split_slash ticker))%nat.
Proof.
  intros ticker target.
  apply (parseCompareTicker_normal_form ticker target).
  vm_compute. reflexivity.
Defined.

(** ** resolveSymbol *)

Lemma splitSep_nonempty (s : jsstring) : forall cur, splitSep s cur <> [].
Proof.
  induction s as [|a s IH]; intros cur; [discriminate|].
  rewrite splitSep_cons. destruct (startsWith SEP (a :: s)); [discriminate|apply IH].
Qed.

Lemma join_slash_cons (p : jsstring) (rest : list jsstring) :
  rest <> [] -> join_slash (p :: rest) = p ++ SEP ++ join_slash rest.
Proof. destruct rest; [congruence|reflexivity]. Qed.

Lemma startsWith_SEP_skip (a : N) (s : jsstring) :
  startsWith SEP (a :: s) = true -> a :: s = SEP ++ skipn 2 s.
Proof.
  destruct s as [|b [|c rest]]; cbn -[N.eqb]; rewrite ?andb_false_r;
    try discriminate.
  intros H. apply andb_true_iff in H as [Ha H].
  apply andb_true_iff in H as [Hb H]. apply andb_true_iff in H as [Hc _].
  apply N.eqb_eq in Ha, Hb, Hc. subst. reflexivity.
Qed.

Lemma join_split (k : nat) :
  forall s cur, (length s <= k)%nat -> join_slash (splitSep s cur) = cur ++ s.
Proof.
  induction k as [|k IH]; intros s cur Hlen.
  - destruct s; [|simpl in Hlen; lia]. simpl. now rewrite app_nil_r.
  - destruct s as [|a s]; [simpl; now rewrite app_nil_r|].
    simpl in Hlen. rewrite splitSep_cons.
    destruct (startsWith SEP (a :: s)) eqn:E.
    + rewrite join_slash_cons by apply splitSep_nonempty.
      rewrite IH by (rewrite length_skipn; lia).
      now rewrite (startsWith_SEP_skip a s E).
    + rewrite IH by lia. now rewrite <- app_assoc.
Qed.

Lemma join_removelast (parts : list jsstring) :
  (2 <= length parts)%nat ->
  join_slash parts = join_slash (removelast parts) ++ SEP ++ last parts [].
Proof.
  induction parts as [|p [|q rest] IH]; simpl length; intros Hlen; try lia.
  destruct rest as [|r rest].
  - reflexivity.
  - rewrite join_slash_cons by discriminate.
    rewrite IH by (simpl; lia).
    change (removelast (p :: q :: r :: rest))
      with (p :: removelast (q :: r :: rest)).
    change (last (p :: q :: r :: rest) [])
      with (last (q :: r :: rest) []).
    rewrite join_slash_cons by (destruct rest; discriminate).
    now rewrite <- !app_assoc.
Qed.

Lemma resolveSymbol_shape (tokenExchange symbolName : jsstring)
    (target : CompareTarget) :
  parseCompareTicker symbolName = Some target ->
  exists shown,
    resolveSymbol tokenExchange symbolName =
      (mkSymbol (Some symbolName) (Some symbolName) (Some shown), lit "DEX") /\
    symbolName = shown ++ SEP ++ last (split_slash symbolName) [].
Proof.
  intros Hparse.
  destruct (parseCompareTicker_normal_form_aux symbolName target Hparse)
    as (Ha & Hlen).
  exists (join_slash (removelast (split_slash symbolName))).
  unfold resolveSymbol. rewrite Hparse. split; [reflexivity|].
  rewrite <- join_removelast by lia.
  unfold split_slash. now rewrite (join_split (length symbolName)).
Qed.

(** X13. For a compare ticker [resolveSymbol] reports the exchange
    ["DEX"], the ticker and the description equal to the symbol, and as
    name the symbol without its last separator and segment: joining what
    [split] returned gives the symbol back, so the symbol is the name,
    [" / "] and the last segment, whose trimmed form is the address. *)
Theorem resolveSymbol_compare :
  forall (tokenExchange symbolName : jsstring) (target : CompareTarget),
    parseCompareTicker symbolName = Some target ->
    exists shown,
      resolveSymbol tokenExchange symbolName =
        (mkSymbol (Some symbolName) (Some symbolName) (Some shown), lit "DEX") /\
      symbolName = shown ++ SEP ++ last (split_slash symbolName) [] /\
      trim (last (split_slash symbolName) []) = address target.
Proof.
  intros ex s target Hparse.
  destruct (resolveSymbol_shape ex s target Hparse) as (shown & E & Es).
  exists shown. split; [exact E|]. split; [exact Es|].
  symmetry. apply (parseCompareTicker_normal_form_aux s target Hparse).
Qed.

Lemma resolveSymbol_compare_witness :
  exists shown,
    resolveSymbol (lit "Uniswap") (lit "BIBI / WETH / eth / 0xABCDEF12") =
      (mkSymbol (Some (lit "BIBI / WETH / eth / 0xABCDEF12"))
                (Some (lit "BIBI / WETH / eth / 0xABCDEF12")) (Some shown),
       lit "DEX") /\
    lit "BIBI / WETH / eth / 0xABCDEF12" =
      shown ++ SEP ++ last (split_slash (lit "BIBI / WETH / eth / 0xABCDEF12")) [] /\
    trim (last (split_slash (lit "BIBI / WETH / eth / 0xABCDEF12")) []) =
      address (mkTarget (lit "0xABCDEF12") (lit "eth")).
Proof.
  apply (resolveSymbol_compare (lit "Uniswap")
           (lit "BIBI / WETH / eth / 0xABCDEF12")
           (mkTarget (lit "0xABCDEF12") (lit "eth"))).
  vm_compute. reflexivity.
Defined.

Lemma split_built_ticker (poolName net addr : jsstring) :
  endsWith (lit " /") (trim poolName) = false ->
  includes SEP net = false ->
  endsWith (lit " /") net = false ->
  includes SEP addr = false ->
  exists pre, pre <> [] /\
    split_slash (buildCompareTicker poolName net addr) = pre ++ [net; addr].
Proof.
  intros Hname Hinc Hend Hainc.
  destruct (splitSep_name _ (trim poolName) (Nat.le_refl _) Hname []
              (net ++ SEP ++ addr)) as (pre & Epre & Hpre).
  exists pre. split; trivial.
  unfold split_slash, buildCompareTicker. rewrite Epre.
  rewrite splitSep_segment by now apply includes_before_space.
  now rewrite splitSep_no_sep.
Qed.

(** X14. [resolveSymbol] after [buildCompareTicker]: for a ticker built
    from a pool name, a network and an address that satisfy the conditions
    of the round trip, the resolved name is the trimmed pool name, [" / "]
    and the network, and the exchange is ["DEX"]. *)
Theorem resolveSymbol_built_ticker :
  forall tokenExchange poolName net addr : jsstring,
    endsWith (lit " /") (trim poolName) = false ->
    nonEmpty net = true ->
    includes SEP net = false ->
    endsWith (lit " /") net = false ->
    trim net = net ->
    (8 <= length addr)%nat ->
    includes SEP addr = false ->
    trim addr = addr ->
    let symbolName := buildCompareTicker poolName net addr in
    resolveSymbol tokenExchange symbolName =
      (mkSymbol (Some symbolName) (Some symbolName)
                (Some (trim poolName ++ SEP ++ net)),
       lit "DEX").
Proof.
  intros ex poolName net addr Hname Hne Hinc Hend Htrim Hlen Hainc Hatrim s.
  destruct (split_built_ticker poolName net addr Hname Hinc Hend Hainc)
    as (pre & Hpre & Eparts). fold s in Eparts.
  assert (Hparse : parseCompareTicker s = Some (mkTarget addr net)).
  { rewrite parseCompareTicker_decision. cbv zeta.
    assert (Hticker : nonEmpty (trim s) = true).
    { apply (trim_nonEmpty _ 47%N); [|reflexivity].
      unfold s, buildCompareTicker, SEP. apply in_or_app. right. simpl. auto. }
    rewrite Hticker, Eparts, removelast_two, last_two, last_last.
    rewrite Htrim, Hatrim, Hne.
    assert (H3 : (3 <=? length (pre ++ [net; addr]))%nat = true).
    { apply Nat.leb_le. rewrite length_app. simpl.
      destruct pre; [congruence|simpl; lia]. }
    now rewrite H3, (proj2 (Nat.leb_le _ _) Hlen). }
  destruct (resolveSymbol_shape ex s _ Hparse) as (shown & -> & Es).
  rewrite Eparts, last_two in Es.
  assert (E : shown = trim poolName ++ SEP ++ net).
  { apply (app_inv_tail (SEP ++ addr)).
    rewrite <- Es. unfold s, buildCompareTicker.
    now rewrite <- !app_assoc. }
  now rewrite E.
Qed.

Lemma resolveSymbol_built_ticker_witness :
  resolveSymbol (lit "Uniswap")
                (buildCompareTicker (lit " BIBI ") (lit "eth") (lit "0xABCDEF12")) =
    (mkSymbol (Some (buildCompareTicker (lit " BIBI ") (lit "eth") (lit "0xABCDEF12")))
              (Some (buildCompareTicker (lit " BIBI ") (lit "eth") (lit "0xABCDEF12")))
              (Some (trim (lit " BIBI ") ++ SEP ++ lit "eth")),
     lit "DEX").
Proof.
  apply (resolveSymbol_built_ticker (lit "Uniswap") (lit " BIBI ") (lit "eth")
           (lit "0xABCDEF12"));
    first [reflexivity | simpl; lia].
Defined.

(** ** compareBarsCache *)

Lemma str_eqb_eq (a b : jsstring) : str_eqb a b = true <-> a = b.
Proof.
  revert b. induction a as [|x a IH]; intros [|y b]; cbn -[N.eqb];
    try (split; [discriminate|congruence]); [tauto|].
  rewrite andb_true_iff, N.eqb_eq, IH. split.
  - intros [-> ->]. reflexivity.
  - intros [= -> ->]. auto.
Qed.


Lemma str_eqb_neq (a b : jsstring) : a <> b -> str_eqb a b = false.
Proof.
  intros H. destruct (str_eqb a b) eqn:E; trivial.
  apply str_eqb_eq in E. contradiction.
Qed.


Lemma cache_get_set_other (cache : CompareCache) (key key' : jsstring)
    (v : list IOhlcvData) :
  key <> key' ->
  cache_get (cache_set cache key v) key' = cache_get cache key'.
Proof.
  intros Hne. induction cache as [|[k old] rest IH]; simpl.
  - now rewrite str_eqb_neq.
  - destruct (str_eqb k key) eqn:E; simpl.
    + apply str_eqb_eq in E. subst k. now rewrite str_eqb_neq.
    + now rewrite IH.
Qed.

Lemma cache_set_keeps (cache : CompareCache) (key : jsstring)
    (data : list IOhlcvData) :
  cache_get cache key = None ->
  forall key' v, cache_get cache key' = Some v ->
                 cache_get (cache_set cache key data) key' = Some v.
Proof.
  intros Hnone key' v Hv. rewrite cache_get_set_other; trivial.
  intros ->. congruence.
Qed.

(** X15. [getBars] only ever adds to the compare cache: every entry
    that was in the cache is still there with the same bars afterwards; a
    call that ends in [onError], and every call for a symbol that is not a
    compare ticker, leaves the cache exactly as it was. *)
Theorem getBars_cache_grows :
  forall (getDataFeed : jsstring -> jsstring -> Timeframe -> Z -> jsstring + IDatafeed)
         (minuteData hourData dayData : list IOhlcvData) (cache : CompareCache)
         (symbolInfo : SymbolInfo) (resolution : jsstring)
         (periodParams : PeriodParams),
    let after := getBars getDataFeed minuteData hourData dayData cache
                         symbolInfo resolution periodParams in
    (forall key v, cache_get cache key = Some v ->
                   cache_get (fst after) key = Some v) /\
    match snd after with
    | OnError _ => fst after = cache
    | OnResult _ => True
    end /\
    match parseCompareTicker (tickerOf symbolInfo) with
    | None => fst after = cache
    | Some _ => True
    end.
Proof.
  intros gdf M H D cache info res period. cbv zeta. unfold getBars.
  destruct (parseCompareTicker (tickerOf info)) as [parsed|]; [|simpl; auto].
  cbv zeta.
  destruct (cache_get cache (address parsed ++ lit "_" ++ network parsed))
    as [cached|] eqn:Hget; [simpl; auto|].
  destruct (fetchFullOhlcv gdf (address parsed) (network parsed)) as [err|data];
    [simpl; auto|].
  cbn [fst snd]. split; [|auto].
  now apply cache_set_keeps.
Qed.






(** ** handleCompareSelect and the search results *)



Lemma indexOfUnderscore_split (id : jsstring) :
  match indexOfUnderscore id with
  | Some idx =>
      ~ In 95%N (firstn idx id) /\
      exists rest, id = firstn idx id ++ [95%N] ++ rest
  | None => ~ In 95%N id
  end.
Proof.
  induction id as [|c id IH]; simpl; [tauto|].
  destruct (N.eqb_spec c 95) as [->|Hc].
  - simpl. split; [tauto|]. now exists id.
  - destruct (indexOfUnderscore id) as [idx|].
    + destruct IH as [Hno [rest Hrest]]. simpl. split.
      * intros [E|Hin]; [congruence|contradiction].
      * exists rest. now rewrite Hrest at 1.
    + intros [E|Hin]; [congruence|contradiction].
Qed.

Lemma networkOfId_prefix_aux (id : jsstring) : ~ In 95%N (networkOfId id).
Proof.
  unfold networkOfId.
  pose proof (indexOfUnderscore_split id) as H.
  destruct (indexOfUnderscore id) as [idx|].
  - apply H.
  - vm_compute. intuition discriminate.
Qed.

(** X18. The network that the search mapping reads off an item id never
    contains an underscore: it is the part of the id before its first
    ["_"], and ["eth"] when the id has none. *)
Theorem networkOfId_prefix :
  forall id : jsstring,
    ~ In 95%N (networkOfId id) /\
    ((exists rest, id = networkOfId id ++ lit "_" ++ rest) \/
     (~ In 95%N id /\ networkOfId id = lit "eth")).
Proof.
  intros id. unfold networkOfId.
  pose proof (indexOfUnderscore_split id) as H.
  destruct (indexOfUnderscore id) as [idx|].
  - destruct H as [Hno Hrest]. split; [exact Hno|]. left. exact Hrest.
  - split.
    + vm_compute. intuition discriminate.
    + right. split; [exact H|reflexivity].
Qed.

Lemma app_underscore_inj (a1 a2 n1 n2 : jsstring) :
  ~ In 95%N n1 -> ~ In 95%N n2 ->
  a1 ++ [95%N] ++ n1 = a2 ++ [95%N] ++ n2 ->
  a1 = a2 /\ n1 = n2.
Proof.
  revert a2. induction a1 as [|x a1 IH]; intros [|y a2] H1 H2 E; simpl in E.
  - injection E as E. auto.
  - injection E as <- E. exfalso. apply H1. rewrite E.
    apply in_or_app. right. now left.
  - injection E as -> E. exfalso. apply H2. rewrite <- E.
    apply in_or_app. right. now left.
  - injection E as -> E. destruct (IH a2 H1 H2 E) as [-> ->]. auto.
Qed.

Lemma toResult_network (item : Search.Item) (result : Search.CompareResult) :
  Search.toResult item = Some result ->
  ~ In 95%N (Search.network result) /\
  Search.address item = Some (Search.poolAddress result) /\
  Search.poolAddress result <> [] /\
  Search.ticker result =
    buildCompareTicker (Search.poolName result) (Search.network result)
                       (Search.poolAddress result).
Proof.
  unfold Search.toResult.
  destruct (Search.address item) as [poolAddress|]; [|discriminate].
  destruct (Search.id item) as [rid|]; [|discriminate].
  destruct poolAddress as [|c poolAddress]; [discriminate|].
  destruct (nonEmpty rid); [|discriminate].
  cbn [nonEmpty andb]. cbv zeta. intros [= <-]. cbn.
  split; [apply networkOfId_prefix_aux|]. split; [reflexivity|].
  split; [discriminate|reflexivity].
Qed.

(** X19. Search results do not collide in the compare cache: two results
    of the search mapping that have the same cache key
    [poolAddress_network] have the same pool address and the same network,
    because a result's network holds no underscore. *)
Theorem search_results_cache_key :
  forall (item1 item2 : Search.Item) (result1 result2 : Search.CompareResult),
    Search.toResult item1 = Some result1 ->
    Search.toResult item2 = Some result2 ->
    cacheKeyOf (Search.poolAddress result1) (Search.network result1) =
    cacheKeyOf (Search.poolAddress result2) (Search.network result2) ->
    Search.poolAddress result1 = Search.poolAddress result2 /\
    Search.network result1 = Search.network result2.
Proof.
  intros item1 item2 result1 result2 H1 H2 Hkey.
  apply toResult_network in H1 as (Hn1 & _).
  apply toResult_network in H2 as (Hn2 & _).
  now apply app_underscore_inj.
Qed.

Lemma search_results_cache_key_witness :
  let item1 := Search.mkItem (Some (lit "eth_0xABCDEF12")) (Some (lit "0xABCDEF12"))
                             (Some (lit "BIBI")) in
  let item2 := Search.mkItem (Some (lit "eth_pool")) (Some (lit "0xABCDEF12")) None in
  let result1 := Search.mkResult (lit "0xABCDEF12") (networkOfId (lit "eth_0xABCDEF12"))
                   (lit "BIBI")
                   (buildCompareTicker (lit "BIBI") (lit "eth") (lit "0xABCDEF12")) in
  let result2 := Search.mkResult (lit "0xABCDEF12") (networkOfId (lit "eth_pool"))
                   (lit "0xABCDEF12")
                   (buildCompareTicker (lit "0xABCDEF12") (lit "eth")
                                       (lit "0xABCDEF12")) in
  Search.poolAddress result1 = Search.poolAddress result2 /\
  Search.network result1 = Search.network result2.
Proof.
  intros item1 item2 result1 result2.
  apply (search_results_cache_key item1 item2 result1 result2); reflexivity.
Defined.

(** ** What the widget is handed *)

Lemma ascending_widgetBar (series : list IOhlcvData) :
  ascending series -> ascending (map widgetBar series).
Proof.
  unfold ascending.
  induction series as [|bar rest IH]; intros Hs; simpl; [constructor|].
  simpl in Hs. apply StronglySorted_inv in Hs as [Hs Hbar].
  constructor; [now apply IH|].
  rewrite Forall_forall in *. intros t Ht.
  apply in_map_iff in Ht as (w & <- & Hw).
  apply in_map_iff in Hw as (b & <- & Hb).
  assert (time bar < time b) by (apply Hbar; now apply in_map).
  unfold widgetBar; cbn [time]. lia.
Qed.

Lemma serveFromCache_bars (rawBars : list IOhlcvData) (resolution : jsstring)
    (periodParams : PeriodParams) :
  let served := bars (serveFromCache rawBars resolution periodParams) in
  ascending served /\
  (forall bar, In bar served ->
     time bar mod (1000 * intervalSecOf resolution) = 0 /\
     1000 * from periodParams <= time bar <= 1000 * to periodParams) /\
  (length served <= length rawBars)%nat.
Proof.
  cbv zeta. unfold serveFromCache, aggregateBars_any.
  destruct (lookupIntervalSec resolution); cbn [bars];
    [|split; [constructor|split; [intros bar []|simpl; lia]]].
  split; [|split].
  - apply ascending_widgetBar, ascending_filter, aggregateBars_ascending.
  - intros bar Hbar.
    apply in_map_iff in Hbar as (agg & <- & Hagg).
    apply filter_In in Hagg as [Hagg Hin].
    apply inPeriod_spec in Hin.
    destruct (proj1 (aggregateBars_times rawBars resolution (time agg))
                (in_map time _ _ Hagg)) as (raw & _ & E).
    destruct (bucketTimeOf_bounds (intervalSecOf resolution) raw
                (intervalSecOf_pos resolution)) as [Hmod _].
    rewrite E in Hmod.
    pose proof (intervalSecOf_pos resolution) as Hpos.
    unfold widgetBar; cbn [time]. split; [|lia].
    rewrite (Z.mul_comm (time agg)), Z.mul_mod_distr_l, Hmod; lia.
  - rewrite length_map.
    etransitivity; [apply filter_length_le|].
    rewrite <- (length_map time), <- (length_map (bucketTimeOf (intervalSecOf resolution)) rawBars).
    apply NoDup_incl_length.
    + apply ascending_NoDup, aggregateBars_ascending.
    + intros k Hk. apply aggregateBars_times in Hk as (bar & Hbar & <-).
      now apply in_map.
Qed.

(** X20. Whatever [getBars] hands to [onResult] is in strictly ascending
    time order with no timestamp twice, every time is a multiple of the
    resolution's interval in milliseconds and lies in the requested period
    (in milliseconds); this holds for every source series, also an unsorted
    one or one that has a timestamp twice. *)
Theorem getBars_bars_ascending :
  forall (getDataFeed : jsstring -> jsstring -> Timeframe -> Z -> jsstring + IDatafeed)
         (minuteData hourData dayData : list IOhlcvData) (cache : CompareCache)
         (symbolInfo : SymbolInfo) (resolution : jsstring)
         (periodParams : PeriodParams),
    match snd (getBars getDataFeed minuteData hourData dayData cache
                       symbolInfo resolution periodParams) with
    | OnError _ => True
    | OnResult result =>
        ascending (bars result) /\
        forall bar, In bar (bars result) ->
          time bar mod (1000 * intervalSecOf resolution) = 0 /\
          1000 * from periodParams <= time bar <= 1000 * to periodParams
    end.
Proof.
  intros gdf M H D cache info res period. unfold getBars.
  destruct (parseCompareTicker (tickerOf info)) as [parsed|]; cbv zeta.
  - destruct (cache_get cache _) as [cached|].
    + cbn [snd]. split; apply (serveFromCache_bars cached res period).
    + destruct (fetchFullOhlcv gdf _ _) as [err|data]; cbn [snd]; trivial.
      split; apply (serveFromCache_bars data res period).
  - cbn [snd]. split; apply (serveFromCache_bars _ res period).
Qed.

Lemma lastOf_latest (series : list IOhlcvData) (bar : IOhlcvData) :
  StronglySorted Z.le (map time series) -> In bar series ->
  exists latest, lastOf series = Some latest /\ time bar <= time latest.
Proof.
  revert bar. induction series as [|x [|y rest] IH]; intros bar Hs Hbar.
  - destruct Hbar.
  - destruct Hbar as [<-|[]]. exists x. split; [reflexivity|lia].
  - simpl in Hs. apply StronglySorted_inv in Hs as [Hs Hx].
    destruct (IH y Hs (or_introl eq_refl)) as (latest0 & E0 & Hy).
    destruct Hbar as [<-|Hbar].
    + exists latest0. split; [exact E0|].
      apply Forall_inv in Hx. lia.
    + destruct (IH bar Hs Hbar) as (latest & E & Hle).
      exists latest. split; [exact E|exact Hle].
Qed.

(** X21. For the chart's own symbol at a daily resolution, with the day
    series in time order, the bar that [subscribeBars] reports is never
    older than a bar [getBars] has served: whenever [getBars] serves a bar
    there is a last bar, and its time is at least the served bar's. *)
Theorem subscribeBars_not_older :
  forall (getDataFeed : jsstring -> jsstring -> Timeframe -> Z -> jsstring + IDatafeed)
         (minuteData hourData dayData : list IOhlcvData) (cache : CompareCache)
         (symbolInfo : SymbolInfo) (resolution : jsstring)
         (periodParams : PeriodParams),
    parseCompareTicker (tickerOf symbolInfo) = None ->
    DAILY_RESOLUTIONS_has resolution = true ->
    StronglySorted Z.le (map time dayData) ->
    exists result,
      snd (getBars getDataFeed minuteData hourData dayData cache
                   symbolInfo resolution periodParams) = OnResult result /\
      forall bar, In bar (bars result) ->
        exists realtime,
          subscribeBars minuteData dayData = Some realtime /\
          time bar <= time realtime.
Proof.
  intros gdf M H D cache info res period Hparse Hdaily Hsorted.
  unfold getBars. rewrite Hparse. cbn [snd].
  eexists. split; [reflexivity|].
  unfold sourceData. rewrite Hdaily.
  unfold serveFromCache, aggregateBars_any.
  destruct (lookupIntervalSec res); cbn [bars]; [|intros bar []].
  intros bar Hbar.
  apply in_map_iff in Hbar as (agg & <- & Hagg).
  apply filter_In in Hagg as [Hagg _].
  destruct (proj1 (aggregateBars_times D res (time agg))
              (in_map time _ _ Hagg)) as (raw & Hraw & E).
  destruct (bucketTimeOf_bounds (intervalSecOf res) raw (intervalSecOf_pos res))
    as [_ Hb].
  rewrite E in Hb.
  destruct (lastOf_latest D raw Hsorted Hraw) as (latest & Elast & Hle).
  exists (widgetBar latest). unfold subscribeBars, lastBar. rewrite Elast.
  split; [reflexivity|]. unfold widgetBar; cbn [time]. lia.
Qed.

Lemma subscribeBars_not_older_witness :
  let dayData := [mkBar 0 1 2 0.5 1.5 10; mkBar 86400 1 2 0.5 1.5 10;
                  mkBar 172800 1 2 0.5 1.5 10] in
  let feed := fun (_ _ : jsstring) (_ : Timeframe) (_ : Z) =>
                inl (lit "offline") : jsstring + IDatafeed in
  let info := mkSymbol (Some (lit "BIBI")) None None in
  exists result,
    snd (getBars feed [] [] dayData [] info (lit "3D") (mkPeriod 0 200000)) =
      OnResult result /\
    forall bar, In bar (bars result) ->
      exists realtime,
        subscribeBars [] dayData = Some realtime /\
        time bar <= time realtime.
Proof.
  intros dayData feed info.
  apply (subscribeBars_not_older feed [] [] dayData [] info (lit "3D")
           (mkPeriod 0 200000)).
  - reflexivity.
  - reflexivity.
  - simpl. repeat constructor; lia.
Defined.

(** ** fetchFullOhlcv *)

(** X22. [fetchFullOhlcv] succeeds exactly when the three requests do;
    the series it then returns is the merge of the three normalised feeds
    and its times never decrease, whatever order the payloads came in; the
    reason of a failure is the reason of one of the three requests. *)
Theorem fetchFullOhlcv_series :
  forall (getDataFeed : jsstring -> jsstring -> Timeframe -> Z -> jsstring + IDatafeed)
         (address network : jsstring),
    match fetchFullOhlcv getDataFeed address network with
    | inr series =>
        StronglySorted Z.le (map time series) /\
        exists dayFeed hourFeed minuteFeed,
          getDataFeed address network TfDay 1 = inr dayFeed /\
          getDataFeed address network TfHour 1 = inr hourFeed /\
          getDataFeed address network TfMinute 5 = inr minuteFeed /\
          incl (getOhlcvFromFeed dayFeed) series /\
          forall bar, In bar series ->
            In bar (getOhlcvFromFeed minuteFeed) \/
            In bar (getOhlcvFromFeed hourFeed) \/
            In bar (getOhlcvFromFeed dayFeed)
    | inl err =>
        getDataFeed address network TfDay 1 = inl err \/
        getDataFeed address network TfHour 1 = inl err \/
        getDataFeed address network TfMinute 5 = inl err
    end.
Proof.
  intros gdf address network. unfold fetchFullOhlcv.
  destruct (gdf address network TfDay 1) as [e1|dayFeed]; [auto|].
  destruct (gdf address network TfHour 1) as [e2|hourFeed]; [auto|].
  destruct (gdf address network TfMinute 5) as [e3|minuteFeed]; [auto|].
  cbv zeta.
  set (D := getOhlcvFromFeed dayFeed).
  set (H := getOhlcvFromFeed hourFeed).
  set (M := getOhlcvFromFeed minuteFeed).
  assert (Hs : forall feed, StronglySorted Z.le (map time (getOhlcvFromFeed feed))).
  { intros feed. unfold getOhlcvFromFeed.
    destruct (data feed); [apply sortByTime_sorted|constructor]. }
  destruct (mergeLoop_covers _ M H D [] _ (mergeLoop_terminates M H D))
    as (Hfrom & _ & Hds & _ & _).
  split.
  - apply (mergeLoop_sorted (mergeFuel M H D) M H D [] _ (Hs _) (Hs _) (Hs _)).
    + constructor.
    + intros b c [].
    + apply mergeLoop_terminates.
  - exists dayFeed, hourFeed, minuteFeed.
    split; [reflexivity|]. split; [reflexivity|]. split; [reflexivity|].
    split; [exact Hds|].
    intros bar Hbar. destruct (Hfrom bar Hbar) as [[]|Hb]. exact Hb.
Qed.

(** ** The resolution tables *)

(** X23. The three resolution tables agree: every resolution the chart
    offers has its own entry in [chartSecondsPerResolution], so the
    fallback of 300 seconds is not used for it; a resolution that
    [getBars] serves from the day series has an interval of at least one
    day, and every other one is a number of minutes whose interval is
    that number times 60 and less than a day. *)
Theorem chartResolutions_consistent :
  Forall (fun resolution =>
            exists seconds,
              table_get chartSecondsPerResolution resolution = Some seconds /\
              intervalSecOf resolution = seconds /\
              if DAILY_RESOLUTIONS_has resolution then 86400 <= seconds
              else parseInt resolution = Some (seconds / 60) /\
                   seconds mod 60 = 0 /\ seconds < 86400)
         chartResolutions.
Proof.
  unfold chartResolutions.
  repeat (constructor;
          [eexists; split; [vm_compute; reflexivity|];
           split; [vm_compute; reflexivity|];
           vm_compute; intuition congruence|]).
  constructor.
Qed.

(** ** searchSymbols *)

Lemma mapped_In (items : list Search.Item) (result : Search.CompareResult) :
  In result (Search.mapped items) ->
  exists item, In item items /\ Search.toResult item = Some result.
Proof.
  induction items as [|item rest IH]; simpl; [intros []|].
  destruct (Search.toResult item) as [r|] eqn:E.
  - intros [<-|Hin]; [eauto|].
    destruct (IH Hin) as (item' & Hitem & E'). eauto.
  - intros Hin. destruct (IH Hin) as (item' & Hitem & E'). eauto.
Qed.

Lemma mapped_length (items : list Search.Item) :
  (length (Search.mapped items) <= length items)%nat.
Proof.
  induction items as [|item rest IH]; simpl; trivial.
  destruct (Search.toResult item); simpl; lia.
Qed.

(** X24. [searchSymbols] answers with no entry for an input shorter
    than two characters once trimmed and when the search request fails;
    otherwise it answers with at most one entry per item of the response,
    and each entry comes from an item that has a non-empty address: its
    ticker is [buildCompareTicker] of the entry's symbol, a network without
    underscore and that address. *)
Theorem searchSymbols_entries :
  forall (searchToken : jsstring -> option (list Search.Item))
         (userInput : jsstring),
    let entries := searchSymbols searchToken userInput in
    ((length (trim userInput) < 2)%nat -> entries = []) /\
    (searchToken userInput = None -> entries = []) /\
    (forall items, searchToken userInput = Some items ->
                   (length entries <= length items)%nat) /\
    (forall symbol ticker, In (symbol, ticker) entries ->
       exists items item network poolAddress,
         searchToken userInput = Some items /\ In item items /\
         Search.address item = Some poolAddress /\ poolAddress <> [] /\
         ~ In 95%N network /\
         ticker = buildCompareTicker symbol network poolAddress).
Proof.
  intros searchToken userInput entries. unfold entries, searchSymbols.
  split; [|split; [|split]].
  - intros Hshort. apply Nat.ltb_lt in Hshort. rewrite Hshort.
    now rewrite orb_true_r.
  - intros ->. now destruct (_ || _).
  - intros items ->. destruct (_ || _); simpl; [lia|].
    rewrite length_map. apply mapped_length.
  - intros symbol ticker. destruct (_ || _); [intros []|].
    destruct (searchToken userInput) as [items|]; [|intros []].
    intros Hin. apply in_map_iff in Hin as (result & [= <- <-] & Hres).
    apply mapped_In in Hres as (item & Hitem & E).
    destruct (toResult_network item result E) as (Hnet & Haddr & Hne & Hticker).
    exists items, item, (Search.network result), (Search.poolAddress result).
    auto 7.
Qed.
